(** * Reportable stack traces: a shallow embedding of [withstack/reportable.go]

    The Go file turns an error value into a Sentry stack trace.  Its core is
    [parsePrintedStack], which reverse-engineers the frames out of the text
    that [fmt.Sprintf("%+v", st)] prints for a [github.com/pkg/errors] stack.

    Conventions of the embedding:
    - a Go [string] is its sequence of bytes, [list ascii];
    - a Go [int] is a [Z] (the target is 64-bit, so [int] ranges over
      [-2^63 .. 2^63-1]; no arithmetic below leaves that range);
    - an operation that can panic (indexing, slicing) returns an [outcome];
    - loops whose index is updated in their body carry an explicit fuel. *)

From Stdlib Require Import ZArith Ascii String List Lia Bool.
From stdpp Require Import base option list strings.

Local Open Scope Z_scope.

(** ** Outcomes of a Go computation *)

Inductive outcome (A : Type) : Type :=
| Returns (a : A)
| Panics
| OutOfFuel.
Arguments Returns {A} a.
Arguments Panics {A}.
Arguments OutOfFuel {A}.

Global Instance outcome_ret : MRet outcome := @Returns.
Global Instance outcome_bind : MBind outcome := fun A B f m =>
  match m with
  | Returns a => f a
  | Panics => Panics
  | OutOfFuel => OutOfFuel
  end.

(** ** Go strings and slices *)

Abbreviation gostring := (list ascii) (only parsing).

(** A string literal of the source, as its bytes. *)
Definition lit (s : string) : gostring := list_ascii_of_string s.

Definition len {A} (l : list A) : Z := Z.of_nat (length l).

(** [l[i]]: panics when [i] is out of range. *)
Definition index {A} (l : list A) (i : Z) : outcome A :=
  if (0 <=? i) && (i <? len l) then
    match l !! Z.to_nat i with
    | Some x => Returns x
    | None => Panics
    end
  else Panics.

(** [l[i] = x]: panics when [i] is out of range. *)
Definition store {A} (l : list A) (i : Z) (x : A) : outcome (list A) :=
  if (0 <=? i) && (i <? len l) then Returns (<[Z.to_nat i := x]> l) else Panics.

(** [s[:hi]] and [s[lo:]]: panic when the bound is outside [0 .. len(s)]. *)
Definition slice_to (s : gostring) (hi : Z) : outcome gostring :=
  if (0 <=? hi) && (hi <=? len s) then Returns (take (Z.to_nat hi) s) else Panics.

Definition slice_from (s : gostring) (lo : Z) : outcome gostring :=
  if (0 <=? lo) && (lo <=? len s) then Returns (drop (Z.to_nat lo) s) else Panics.

Definition byteval (c : ascii) : Z := Z.of_N (N_of_ascii c).
Definition bytechar (z : Z) : ascii := ascii_of_N (Z.to_N z).

(** ** The functions of Go's [strings] package that the file calls *)

Module GoStrings.

(** [strings.HasPrefix]: [len(s) >= len(prefix) && s[:len(prefix)] == prefix]. *)
Definition HasPrefix (s prefix : gostring) : bool :=
  (length prefix <=? length s)%nat && bool_decide (take (length prefix) s = prefix).

(** [strings.LastIndexByte]: scans [i] from [len(s)-1] down to [0]. *)
Fixpoint lastIndexByteBelow (s : gostring) (c : ascii) (n : nat) : Z :=
  match n with
  | O => -1
  | S i => if bool_decide (s !! i = Some c) then Z.of_nat i
           else lastIndexByteBelow s c i
  end.

Definition LastIndexByte (s : gostring) (c : ascii) : Z :=
  lastIndexByteBelow s c (length s).

(** [strings.LastIndex]: the largest [i] with [s[i:i+len(substr)] == substr],
    or [-1]; candidates are tried from [len(s)-len(substr)] down to [0]. *)
Fixpoint lastIndexAt (s substr : gostring) (i : nat) : Z :=
  if bool_decide (take (length substr) (drop i s) = substr) then Z.of_nat i
  else match i with
       | O => -1
       | S i' => lastIndexAt s substr i'
       end.

Definition LastIndex (s substr : gostring) : Z :=
  if (length s <? length substr)%nat then -1
  else lastIndexAt s substr (length s - length substr).

(** [strings.Split(s, sep)] for a one-byte separator, which is how the file
    calls it ([sep = "\n"]): the pieces between the separators, in order.
    The result always has one more element than [s] has separators; in
    particular splitting the empty string gives one empty piece. *)
Fixpoint Split (s : gostring) (sep : ascii) : list gostring :=
  match s with
  | [] => [[]]
  | c :: s' =>
      if bool_decide (c = sep) then [] :: Split s' sep
      else match Split s' sep with
           | piece :: pieces => (c :: piece) :: pieces
           | [] => [[c]]
           end
  end.

(** [strings.Replace(s, old, new, -1)] for a non-empty [old]: every
    non-overlapping occurrence of [old], found left to right, is replaced.
    [skip] counts the bytes of an occurrence still to be dropped.  (For an
    empty [old] Go inserts [new] around every rune; the file never does
    that and the model is not meant for it.) *)
Fixpoint replaceFrom (skip : nat) (s old new : gostring) : gostring :=
  match s with
  | [] => []
  | c :: s' =>
      match skip with
      | S k => replaceFrom k s' old new
      | O => if HasPrefix s old then new ++ replaceFrom (length old - 1) s' old new
             else c :: replaceFrom 0 s' old new
      end
  end.

Definition Replace (s old new : gostring) : gostring := replaceFrom 0 s old new.

(** White space as [unicode.IsSpace] sees it, by UTF-8 encoding: the six
    ASCII ones, U+0085, U+00A0, U+1680, U+2000..U+200A, U+2028, U+2029,
    U+202F, U+205F and U+3000.  A string starts (ends) with a white-space
    rune exactly when it starts (ends) with one of these byte sequences,
    because each is a well-formed encoding beginning with a lead byte. *)
Definition spaceEncodings : list (list Z) :=
  [ [9]; [10]; [11]; [12]; [13]; [32];
    [194; 133]; [194; 160];
    [225; 154; 128];
    [226; 128; 128]; [226; 128; 129]; [226; 128; 130]; [226; 128; 131];
    [226; 128; 132]; [226; 128; 133]; [226; 128; 134]; [226; 128; 135];
    [226; 128; 136]; [226; 128; 137]; [226; 128; 138];
    [226; 128; 168]; [226; 128; 169]; [226; 128; 175];
    [226; 129; 159];
    [227; 128; 128] ].

Definition spaces : list gostring := map (map bytechar) spaceEncodings.

(** Number of bytes of the entry of [table] that [s] starts with, [0] if
    there is none. *)
Definition leadingWidth (table : list gostring) (s : gostring) : nat :=
  match find (HasPrefix s) table with
  | Some enc => length enc
  | None => 0
  end.

(** Drops leading table entries for as long as there is one. *)
Fixpoint trimLeading (table : list gostring) (skip : nat) (s : gostring) : gostring :=
  match s with
  | [] => []
  | _ :: s' =>
      match skip with
      | S k => trimLeading table k s'
      | O => match leadingWidth table s with
             | O => s
             | S w => trimLeading table w s'
             end
      end
  end.

Definition TrimLeftSpace (s : gostring) : gostring := trimLeading spaces 0 s.

Definition TrimRightSpace (s : gostring) : gostring :=
  reverse (trimLeading (map reverse spaces) 0 (reverse s)).

(** [strings.TrimSpace]: leading white-space runes are removed, then
    trailing ones. *)
Definition TrimSpace (s : gostring) : gostring := TrimRightSpace (TrimLeftSpace s).

End GoStrings.

(** ** [strconv.Atoi] *)

Module Strconv.

Inductive NumError := ErrSyntax | ErrRange.

Definition maxUint64 : Z := 2 ^ 64 - 1.
Definition maxInt : Z := 2 ^ 63 - 1.
Definition minInt : Z := - 2 ^ 63.

Definition digitVal (c : ascii) : option Z :=
  let b := byteval c in
  if (48 <=? b) && (b <=? 57) then Some (b - 48) else None.

(** The digit loop of [ParseUint(s, 10, 64)], with [n] the value so far.
    A byte that is no digit is a syntax error; overflow is a range error
    reported at once, before the bytes that follow are looked at. *)
Fixpoint parseUintLoop (s : gostring) (n : Z) : Z * option NumError :=
  match s with
  | [] => (n, None)
  | c :: s' =>
      match digitVal c with
      | None => (0, Some ErrSyntax)
      | Some d =>
          if maxUint64 / 10 + 1 <=? n then (maxUint64, Some ErrRange)
          else let n1 := n * 10 + d in
               if maxUint64 <? n1 then (maxUint64, Some ErrRange)
               else parseUintLoop s' n1
      end
  end.

Definition ParseUint (s : gostring) : Z * option NumError :=
  match s with
  | [] => (0, Some ErrSyntax)
  | _ => parseUintLoop s 0
  end.

(** [ParseInt(s, 10, 0)]: optional sign, then [ParseUint]; a magnitude out
    of range gives the extreme value of that sign with a range error. *)
Definition ParseInt (s : gostring) : Z * option NumError :=
  match s with
  | [] => (0, Some ErrSyntax)
  | c :: s' =>
      let neg := bool_decide (c = "-"%char) in
      let digits := if bool_decide (c = "+"%char) || neg then s' else s in
      match ParseUint digits with
      | (_, Some ErrSyntax) => (0, Some ErrSyntax)
      | (un, _) =>
          let cutoff := 2 ^ 63 in
          if negb neg && (cutoff <=? un) then (cutoff - 1, Some ErrRange)
          else if neg && (cutoff <? un) then (- cutoff, Some ErrRange)
          else (if neg then - un else un, None)
      end
  end.

(** The fast path of [Atoi] for inputs of 1 to 18 bytes. *)
Fixpoint atoiDigits (s : gostring) (n : Z) : option Z :=
  match s with
  | [] => Some n
  | c :: s' =>
      match digitVal c with
      | None => None
      | Some d => atoiDigits s' (n * 10 + d)
      end
  end.

Definition Atoi (s : gostring) : Z * option NumError :=
  let sLen := len s in
  if (0 <? sLen) && (sLen <? 19) then
    match s with
    | [] => (0, Some ErrSyntax)
    | c :: s' =>
        let signed := bool_decide (c = "-"%char) || bool_decide (c = "+"%char) in
        let digits := if signed then s' else s in
        if signed && (len digits <? 1) then (0, Some ErrSyntax)
        else match atoiDigits digits 0 with
             | None => (0, Some ErrSyntax)
             | Some n => (if bool_decide (c = "-"%char) then - n else n, None)
             end
    end
  else ParseInt s.

End Strconv.

(** ** Package [withstack] *)

Module withstack.
Import GoStrings Strconv.

(** [raven.StacktraceFrame], restricted to the fields the file sets.  The
    Go field [Module] is spelled [Module_] here, [Function] is
    [Function_]: both words are reserved. *)
Record frame : Type := mkFrame {
  AbsolutePath : gostring;
  Filename : gostring;
  Lineno : Z;
  InApp : bool;
  Module_ : gostring;
  Function_ : gostring
}.

(** [raven.Stacktrace]; a [*ReportableStackTrace] is an [option] of it,
    [None] being the nil pointer. *)
Record ReportableStackTrace : Type := mkStacktrace { Frames : list frame }.

Definition tab : ascii := bytechar 9.
Definition newline : ascii := bytechar 10.

(** The two bytes of the UTF-8 encoding of the middle dot U+00B7. *)
Definition middleDot : gostring := [bytechar 194; bytechar 183].

Definition unknown : gostring := lit "unknown".

(** [trimPath]. *)
Definition trimPath (filename : gostring) : outcome gostring :=
  let src := lit "/src/" in
  let prefix := LastIndex filename src in
  if prefix =? -1 then mret filename
  else slice_from filename (prefix + len src).

(** [functionName]: the named results are [(pack, name)]. *)
Definition functionName (fnName : gostring) : outcome (gostring * gostring) :=
  let name := fnName in
  let idx := LastIndex name (lit ".") in
  '(pack, name) ←
    (if negb (idx =? -1) then
       pack ← slice_to name idx;
       name ← slice_from name (idx + 1);
       mret (pack, name)
     else mret ([], name));
  let name := Replace name middleDot (lit ".") in
  mret (pack, name).

(** [parsePrintedStackEntry]: the results are [(newI, file, line, fnName)].
    The error of [strconv.Atoi] is dropped, its value is kept. *)
Definition parsePrintedStackEntry (lines : list gostring) (i : Z)
  : outcome (Z * gostring * Z * gostring) :=
  fnName ← index lines i;
  tabbed ← (if i <? len lines - 1 then
              next ← index lines (i + 1);
              mret (HasPrefix next [tab])
            else mret false);
  if tabbed : bool then
    next ← index lines (i + 1);
    let fileLine := TrimSpace next in
    let lineSep := LastIndexByte fileLine ":"%char in
    '(file, line) ←
      (if lineSep =? -1 then mret (fileLine, 0)
       else
         file ← slice_to fileLine lineSep;
         lineStr ← slice_from fileLine (lineSep + 1);
         mret (file, (Atoi lineStr).1));
    mret (i + 1, file, line, fnName)
  else mret (i, [], 0, fnName).

(** The frame that the body of the [for] loop of [parsePrintedStack]
    composes from the fields of an entry. *)
Definition newFrame (file : gostring) (line : Z) (fnName : gostring) : outcome frame :=
  filename ← trimPath file;
  let fr := {| AbsolutePath := file; Filename := filename; Lineno := line;
               InApp := false; Module_ := unknown; Function_ := fnName |} in
  if negb (bool_decide (fnName = unknown)) then
    '(pack, name) ← functionName fnName;
    mret {| AbsolutePath := AbsolutePath fr; Filename := Filename fr;
            Lineno := Lineno fr; InApp := InApp fr;
            Module_ := pack; Function_ := name |}
  else mret fr.

(** [for i := 0; i < len(lines); i++ { ...; i = nextI; ...; append }]. *)
Fixpoint parseLoop (fuel : nat) (lines : list gostring) (i : Z) (frames : list frame)
  : outcome (list frame) :=
  if i <? len lines then
    match fuel with
    | O => OutOfFuel
    | S fuel' =>
        '(nextI, file, line, fnName) ← parsePrintedStackEntry lines i;
        let i := nextI in
        fr ← newFrame file line fnName;
        parseLoop fuel' lines (i + 1) (frames ++ [fr])
    end
  else mret frames.

(** [for i, j := 0, len(frames)-1; i < j; i, j = i+1, j-1 { swap }]. *)
Fixpoint reverseLoop (fuel : nat) (frames : list frame) (i j : Z)
  : outcome (list frame) :=
  if i <? j then
    match fuel with
    | O => OutOfFuel
    | S fuel' =>
        fi ← index frames i;
        fj ← index frames j;
        frames ← store frames i fj;
        frames ← store frames j fi;
        reverseLoop fuel' frames (i + 1) (j - 1)
    end
  else mret frames.

(** The frames in the order of the text, before they are reversed. *)
Definition collectFrames (st : gostring) : outcome (list frame) :=
  let lines := Split (TrimSpace st) newline in
  parseLoop (length lines) lines 0 [].

(** [parsePrintedStack].  A nil slice is an empty list: [frames] starts
    nil and [append] never yields nil. *)
Definition parsePrintedStack (st : gostring) : outcome (option ReportableStackTrace) :=
  frames ← collectFrames st;
  match frames with
  | [] => mret None
  | _ =>
      frames ← reverseLoop (length frames) frames 0 (len frames - 1);
      mret (Some {| Frames := frames |})
  end.

(** *** The resolver

    What [GetReportableStackTrace] can observe of an error value: whether it
    has a [StackTrace()] method (and what that returns), whether it is an
    [errbase.SafeDetailer] (and what [SafeDetails()] returns), and its
    [errbase.GetTypeKey].  A nil error has neither capability. *)

Abbreviation StackTrace := (list Z) (only parsing).
Abbreviation TypeKey := (list ascii) (only parsing).

Record error : Type := mkError {
  StackTracer : option StackTrace;
  SafeDetailer : option (list gostring);
  GetTypeKey : TypeKey
}.

Section Resolver.

(** [fmt.Sprintf("%+v", st)], the printer of [github.com/pkg/errors]. *)
Variable Sprintf_plus_v : StackTrace -> gostring.

(** The three type keys that [init] computes by probing sentinel errors. *)
Variables pkgFundamental pkgWithStackName ourWithStackName : TypeKey.

(** The type key is one of the three registered ones. *)
Definition isOriginMarker (key : TypeKey) : Prop :=
  key = pkgFundamental \/ key = pkgWithStackName \/ key = ourWithStackName.

(** [convertPkgStack]. *)
Definition convertPkgStack (st : StackTrace) : outcome (option ReportableStackTrace) :=
  if len st =? 0 then mret None
  else parsePrintedStack (Sprintf_plus_v st).

(** [GetReportableStackTrace]. *)
Definition GetReportableStackTrace (err : error) : outcome (option ReportableStackTrace) :=
  match StackTracer err with
  | Some st => convertPkgStack st
  | None =>
      match SafeDetailer err with
      | Some details =>
          if 0 <? len details then
            let key := GetTypeKey err in
            if bool_decide (key = pkgFundamental)
               || bool_decide (key = pkgWithStackName)
               || bool_decide (key = ourWithStackName)
            then d0 ← index details 0; parsePrintedStack d0
            else mret None
          else mret None
      | None => mret None
      end
  end.

End Resolver.

End withstack.

(** ** The vocabulary of the properties

    Nothing below is code of the package.  These are the notions in which
    the properties are stated: the entries of a printed stack, as the
    comment in [parsePrintedStack] describes them (a line, then maybe a
    tab-prefixed line); occurrences and last cuts of a separator; joins. *)

Module Grammar.
Import GoStrings withstack.

(** A logical entry: its first line, and the tab-prefixed line after it
    when there is one. *)
Abbreviation entry := (list ascii * option (list ascii))%type (only parsing).

Fixpoint entries (lines : list gostring) : list entry :=
  match lines with
  | [] => []
  | fn :: rest =>
      match rest with
      | next :: rest' =>
          if HasPrefix next [tab] then (fn, Some next) :: entries rest'
          else (fn, None) :: entries rest
      | [] => [(fn, None)]
      end
  end.

Definition entryLines (e : entry) : list gostring :=
  match e with
  | (fn, Some next) => [fn; next]
  | (fn, None) => [fn]
  end.

(** The frame built from an entry: what the loop body composes when the
    entry's lines are all there is. *)
Definition frameOfEntry (e : entry) : outcome frame :=
  '(_, file, line, fnName) ← parsePrintedStackEntry (entryLines e) 0;
  newFrame file line fnName.

(** The frame of an [unknown] entry. *)
Definition unknownFrame : frame :=
  {| AbsolutePath := []; Filename := []; Lineno := 0; InApp := false;
     Module_ := lit "unknown"; Function_ := lit "unknown" |}.

(** The frame that an empty first line gives. *)
Definition emptyFrame : frame :=
  {| AbsolutePath := []; Filename := []; Lineno := 0; InApp := false;
     Module_ := []; Function_ := [] |}.

(** [sep] occurs in [s]. *)
Definition occurs (sep s : gostring) : Prop := exists pre post, s = pre ++ sep ++ post.

(** [s = pre ++ sep ++ post] cuts [s] at the last occurrence of [sep]. *)
Definition lastCut (sep s pre post : gostring) : Prop :=
  s = pre ++ sep ++ post /\
  forall pre' post', s = pre' ++ sep ++ post' -> (length pre' <= length pre)%nat.

(** [sub] sits in [s] at offset [i]. *)
Definition matchAt (s sub : gostring) (i : nat) : Prop :=
  take (length sub) (drop i s) = sub.

(** The pieces joined with [sep] between them. *)
Fixpoint join (sep : gostring) (pieces : list gostring) : gostring :=
  match pieces with
  | [] => []
  | [p] => p
  | p :: ps => p ++ sep ++ join sep ps
  end.

(** The bytes that [strings.TrimSpace] removes among the ASCII ones. *)
Definition asciiSpace (c : ascii) : bool :=
  let b := byteval c in
  (b =? 9) || (b =? 10) || (b =? 11) || (b =? 12) || (b =? 13) || (b =? 32).

(** The fields read from a tab-prefixed line [next]: its trimmed content
    is cut at the last colon, if it has one. *)
Definition fileAndLine (next : gostring) (file : gostring) (line : Z) : Prop :=
  ((":"%char ∉ TrimSpace next) /\ file = TrimSpace next /\ line = 0) \/
  (exists lineStr, TrimSpace next = file ++ ":"%char :: lineStr /\
                   (":"%char ∉ lineStr) /\ line = (Strconv.Atoi lineStr).1).

End Grammar.

(** ** Printed stacks

    The text that [parsePrintedStack] is written for, after the comment at
    its head: a repetition of either [unknown], or a function name and on
    the next line a tab, the file, a colon and the line number; each call
    site is preceded by a newline, as [%+v] prints a stack. *)

Module Printed.
Import GoStrings withstack Grammar.

Inductive site : Type :=
| Unknown
| Site (fn file : gostring) (line : Z).

(** The decimal digits of a natural number, most significant first, for
    numbers of at most [fuel] digits. *)
Fixpoint itoaDigits (fuel : nat) (n : Z) : gostring :=
  match fuel with
  | O => []
  | S fuel' =>
      if n <? 10 then [bytechar (48 + n)]
      else itoaDigits fuel' (n / 10) ++ [bytechar (48 + n mod 10)]
  end.

(** [strconv.Itoa] on the non-negative [int]s, which have at most 19
    digits. *)
Definition Itoa (n : Z) : gostring := itoaDigits 19 n.

Definition siteLines (s : site) : list gostring :=
  match s with
  | Unknown => [unknown]
  | Site fn file line => [fn; tab :: file ++ ":"%char :: Itoa line]
  end.

Definition printSite (s : site) : gostring := join [newline] (siteLines s).

Definition printStack (sites : list site) : gostring :=
  concat (map (fun s => newline :: printSite s) sites).

(** An ASCII byte that is no white space. *)
Definition plain (c : ascii) : bool := (byteval c <? 128) && negb (asciiSpace c).

Definition plainStart (s : gostring) : bool :=
  match s with
  | c :: _ => plain c
  | [] => false
  end.

(** Every entry of a table of encodings starts with a byte that is not
    plain. *)
Definition headsNotPlain (table : list gostring) : Prop :=
  Forall (fun enc => match enc with
                     | e :: _ => plain e = false
                     | [] => False
                     end) table.

(** A text that ends with a plain byte. *)
Definition endsPlain (s : gostring) : Prop := exists s' c, s = s' ++ [c] /\ plain c = true.

(** No entry of several bytes of a table of encodings ends with an ASCII
    white-space byte. *)
Definition tailsNotSpace (table : list gostring) : Prop :=
  Forall (fun enc => match reverse enc with
                     | e :: _ :: _ => asciiSpace e = false
                     | _ => True
                     end) table.

(** The lines of a printed stack. *)
Definition stackLines (sites : list site) : list gostring :=
  concat (map siteLines sites).

(** A call site that prints unambiguously: names and files hold no
    newline, the name starts with a plain byte and so does the file unless
    it is empty, the line number is a non-negative [int]. *)
Definition wellFormed (s : site) : Prop :=
  match s with
  | Unknown => True
  | Site fn file line =>
      plainStart fn = true /\ (newline ∉ fn) /\ (newline ∉ file) /\
      (file = [] \/ plainStart file = true) /\
      0 <= line <= Strconv.maxInt
  end.

(** The frame expected for a call site. *)
Definition siteFrame (s : site) (fr : frame) : Prop :=
  match s with
  | Unknown => fr = unknownFrame
  | Site fn file line =>
      AbsolutePath fr = file /\ Lineno fr = line /\ InApp fr = false /\
      trimPath file = Returns (Filename fr) /\
      (fn = unknown -> Module_ fr = unknown /\ Function_ fr = unknown) /\
      (fn <> unknown -> functionName fn = Returns (Module_ fr, Function_ fr))
  end.

Definition siteEntry (s : site) : entry :=
  match s with
  | Unknown => (unknown, None)
  | Site fn file line => (fn, Some (tab :: file ++ ":"%char :: Itoa line))
  end.

End Printed.

(** * Facts about the embedding *)

(** ** Indexing and slicing *)

Section Slices.
Context {A : Type}.
Implicit Types (l : list A) (i : Z).

Lemma len_nonneg l : 0 <= len l.
Proof. unfold len. lia. Qed.

Lemma len_app l1 l2 : len (l1 ++ l2) = len l1 + len l2.
Proof. unfold len. rewrite length_app. lia. Qed.

Lemma index_Returns l i x :
  0 <= i -> l !! Z.to_nat i = Some x -> index l i = Returns x.
Proof.
  intros Hi Hx. unfold index.
  pose proof (lookup_lt_Some _ _ _ Hx) as Hlt.
  replace ((0 <=? i) && (i <? len l)) with true.
  - now rewrite Hx.
  - symmetry. apply andb_true_iff. unfold len. split; [apply Z.leb_le | apply Z.ltb_lt]; lia.
Qed.

Lemma index_total l i :
  0 <= i < len l -> exists x, l !! Z.to_nat i = Some x /\ index l i = Returns x.
Proof.
  intros [Hi Hlt].
  destruct (lookup_lt_is_Some_2 l (Z.to_nat i)) as [x Hx]; [unfold len in Hlt; lia|].
  exists x. split; [done|]. now apply index_Returns.
Qed.

Lemma index_inv l i x :
  index l i = Returns x -> 0 <= i < len l /\ l !! Z.to_nat i = Some x.
Proof.
  unfold index. destruct ((0 <=? i) && (i <? len l)) eqn:E; [|discriminate].
  apply andb_true_iff in E as [E1 E2].
  apply Z.leb_le in E1. apply Z.ltb_lt in E2.
  destruct (l !! Z.to_nat i) eqn:Hx; [|discriminate].
  intros [= <-]. auto.
Qed.

Lemma store_Returns l i x :
  0 <= i < len l -> store l i x = Returns (<[Z.to_nat i := x]> l).
Proof.
  intros [Hi Hlt]. unfold store.
  replace ((0 <=? i) && (i <? len l)) with true; [done|].
  symmetry. apply andb_true_iff. split; [apply Z.leb_le | apply Z.ltb_lt]; lia.
Qed.

End Slices.

Lemma slice_to_Returns (s : gostring) (hi : Z) :
  0 <= hi <= len s -> slice_to s hi = Returns (take (Z.to_nat hi) s).
Proof.
  intros [H1 H2]. unfold slice_to.
  replace ((0 <=? hi) && (hi <=? len s)) with true; [done|].
  symmetry. apply andb_true_iff. split; apply Z.leb_le; lia.
Qed.

Lemma slice_from_Returns (s : gostring) (lo : Z) :
  0 <= lo <= len s -> slice_from s lo = Returns (drop (Z.to_nat lo) s).
Proof.
  intros [H1 H2]. unfold slice_from.
  replace ((0 <=? lo) && (lo <=? len s)) with true; [done|].
  symmetry. apply andb_true_iff. split; apply Z.leb_le; lia.
Qed.

(** ** [strings]: prefixes and last occurrences *)

Module GoStringsFacts.
Import GoStrings Grammar.

Lemma HasPrefix_true (s p : gostring) :
  HasPrefix s p = true <-> exists r, s = p ++ r.
Proof.
  unfold HasPrefix. rewrite andb_true_iff, bool_decide_eq_true, Nat.leb_le. split.
  - intros [_ H]. exists (drop (length p) s).
    rewrite <- H at 1. symmetry. apply take_drop.
  - intros [r ->]. rewrite length_app. split; [lia|].
    now rewrite take_app_length.
Qed.

Lemma HasPrefix_byte (s : gostring) (c : ascii) :
  HasPrefix s [c] = true <-> exists r, s = c :: r.
Proof. apply HasPrefix_true. Qed.

Lemma matchAt_cut (s sub pre post : gostring) :
  s = pre ++ sub ++ post -> matchAt s sub (length pre).
Proof.
  intros ->. unfold matchAt. now rewrite drop_app_length, take_app_length.
Qed.

Lemma matchAt_split (s sub : gostring) (i : nat) :
  (i + length sub <= length s)%nat -> matchAt s sub i ->
  s = take i s ++ sub ++ drop (i + length sub) s.
Proof.
  unfold matchAt. intros Hle Hm.
  rewrite <- (take_drop i s) at 1. f_equal.
  rewrite <- (take_drop (length sub) (drop i s)) at 1.
  rewrite Hm. f_equal. rewrite drop_drop. done.
Qed.

Lemma matchAt_bound (s sub : gostring) (i : nat) :
  matchAt s sub i -> (length sub <= length s - i)%nat.
Proof.
  unfold matchAt. intros Hm.
  apply (f_equal length) in Hm. rewrite length_take, length_drop in Hm. lia.
Qed.

Lemma lastIndexAt_spec (s sub : gostring) (k : nat) :
  (lastIndexAt s sub k = -1 /\ forall i, (i <= k)%nat -> ~ matchAt s sub i) \/
  (exists i, (i <= k)%nat /\ lastIndexAt s sub k = Z.of_nat i /\ matchAt s sub i /\
             forall j, (i < j <= k)%nat -> ~ matchAt s sub j).
Proof.
  induction k as [|k IH]; simpl; case_bool_decide as Hm.
  - right. exists 0%nat. repeat split; auto. intros j Hj. lia.
  - left. split; [done|]. intros i Hi. replace i with 0%nat by lia. exact Hm.
  - right. exists (S k). repeat split; auto. intros j Hj. lia.
  - destruct IH as [[E Hno]|(i & Hi & E & Hmi & Hlast)].
    + left. split; [done|]. intros i Hi.
      destruct (decide (i = S k)) as [->|]; [exact Hm|]. apply Hno. lia.
    + right. exists i. repeat split; auto.
      intros j Hj. destruct (decide (j = S k)) as [->|]; [exact Hm|]. apply Hlast. lia.
Qed.

(** [LastIndex] finds the last cut when there is one. *)
Lemma LastIndex_lastCut (s sub pre post : gostring) :
  lastCut sub s pre post -> LastIndex s sub = len pre.
Proof.
  intros [Hs Hmax]. unfold LastIndex.
  assert (Hlen : (length s = length pre + length sub + length post)%nat).
  { rewrite Hs, !length_app. lia. }
  destruct (length s <? length sub)%nat eqn:E.
  { apply Nat.ltb_lt in E. lia. }
  pose proof (matchAt_cut _ _ _ _ Hs) as Hpre.
  destruct (lastIndexAt_spec s sub (length s - length sub))
    as [[_ Hno]|(i & Hi & -> & Hmi & Hlast)].
  - exfalso. apply (Hno (length pre)); [lia | done].
  - unfold len. f_equal.
    destruct (Nat.lt_trichotomy i (length pre)) as [Hlt|[->|Hgt]]; [|done|].
    + exfalso. apply (Hlast (length pre)); [lia | done].
    + pose proof (matchAt_split s sub i ltac:(lia) Hmi) as Hcut.
      apply Hmax in Hcut. rewrite length_take in Hcut. lia.
Qed.

(** [LastIndex] answers [-1] when there is no occurrence, and the offset
    of a last cut otherwise. *)
Lemma LastIndex_cases (s sub : gostring) :
  (LastIndex s sub = -1 /\ ~ occurs sub s) \/
  (exists pre post, lastCut sub s pre post /\ LastIndex s sub = len pre).
Proof.
  destruct (length s <? length sub)%nat eqn:E.
  - left. unfold LastIndex. rewrite E. split; [done|].
    apply Nat.ltb_lt in E.
    intros (pre & post & Hs). apply (f_equal length) in Hs.
    rewrite !length_app in Hs. lia.
  - apply Nat.ltb_ge in E.
    destruct (lastIndexAt_spec s sub (length s - length sub))
      as [[E1 Hno]|(i & Hi & E1 & Hmi & Hlast)].
    + left. unfold LastIndex.
      replace (length s <? length sub)%nat with false by (symmetry; now apply Nat.ltb_ge).
      split; [done|]. intros (pre & post & Hs).
      apply (Hno (length pre)); [|exact (matchAt_cut _ _ _ _ Hs)].
      apply (f_equal length) in Hs. rewrite !length_app in Hs. lia.
    + right.
      assert (Hcut : lastCut sub s (take i s) (drop (i + length sub) s)).
      { split; [apply matchAt_split; [lia | done]|].
        intros pre' post' Hs'. rewrite length_take.
        assert ((length pre' + length sub <= length s)%nat).
        { apply (f_equal length) in Hs'. rewrite !length_app in Hs'. lia. }
        destruct (decide (length pre' <= i)%nat); [lia|].
        exfalso. apply (Hlast (length pre')); [lia | exact (matchAt_cut _ _ _ _ Hs')]. }
      eexists _, _. split; [exact Hcut|]. exact (LastIndex_lastCut _ _ _ _ Hcut).
Qed.

(** A cut at the offset that [LastIndex] answers is a last cut. *)
Lemma lastCut_at_LastIndex (s sub pre post : gostring) :
  s = pre ++ sub ++ post -> LastIndex s sub = len pre -> lastCut sub s pre post.
Proof.
  intros Hs E. split; [exact Hs|].
  destruct (LastIndex_cases s sub) as [[E' _]|(pre0 & post0 & [_ Hmax] & E')].
  - rewrite E in E'. pose proof (len_nonneg pre). lia.
  - rewrite E in E'. unfold len in E'. intros pre' post' Hs'.
    apply Hmax in Hs'. lia.
Qed.

Lemma LastIndex_none (s sub : gostring) :
  LastIndex s sub = -1 <-> ~ occurs sub s.
Proof.
  destruct (LastIndex_cases s sub) as [[E Hno]|(pre & post & Hcut & E)].
  - tauto.
  - split.
    + intros E'. rewrite E in E'. unfold len in E'. lia.
    + intros Hno. exfalso. apply Hno. destruct Hcut as [Hs _]. now exists pre, post.
Qed.

Lemma LastIndex_found (s sub : gostring) :
  occurs sub s ->
  exists pre post, lastCut sub s pre post /\ LastIndex s sub = len pre.
Proof.
  intros Hocc. destruct (LastIndex_cases s sub) as [[_ Hno]|H]; [done | exact H].
Qed.

Lemma lastIndexByteBelow_spec (s : gostring) (c : ascii) (n : nat) :
  (lastIndexByteBelow s c n = -1 /\ forall i, (i < n)%nat -> s !! i <> Some c) \/
  (exists i, (i < n)%nat /\ lastIndexByteBelow s c n = Z.of_nat i /\ s !! i = Some c /\
             forall j, (i < j < n)%nat -> s !! j <> Some c).
Proof.
  induction n as [|n IH]; simpl.
  - left. split; [done|]. intros i Hi. lia.
  - case_bool_decide as Hm.
    + right. exists n. repeat split; auto. intros j Hj. lia.
    + destruct IH as [[E Hno]|(i & Hi & E & Hmi & Hlast)].
      * left. split; [done|]. intros i Hi.
        destruct (decide (i = n)) as [->|]; [exact Hm|]. apply Hno. lia.
      * right. exists i. repeat split; auto.
        intros j Hj. destruct (decide (j = n)) as [->|]; [exact Hm|]. apply Hlast. lia.
Qed.

Lemma LastIndexByte_range (s : gostring) (c : ascii) :
  -1 <= LastIndexByte s c < len s.
Proof.
  unfold LastIndexByte, len.
  destruct (lastIndexByteBelow_spec s c (length s)) as [[-> _]|(i & Hi & -> & _)]; lia.
Qed.

Lemma LastIndexByte_none (s : gostring) (c : ascii) :
  LastIndexByte s c = -1 <-> c ∉ s.
Proof.
  unfold LastIndexByte.
  destruct (lastIndexByteBelow_spec s c (length s)) as [[-> Hno]|(i & Hi & -> & Hc & _)].
  - split; [|done]. intros _ Hin. apply list_elem_of_lookup in Hin as [i Hi].
    apply (Hno i); [|done]. now apply lookup_lt_Some in Hi.
  - split; [lia|]. intros Hno. exfalso. apply Hno. eapply list_elem_of_lookup_2. exact Hc.
Qed.

(** The last occurrence of a byte: nothing equal to it comes after. *)
Lemma LastIndexByte_last (pre post : gostring) (c : ascii) :
  c ∉ post -> LastIndexByte (pre ++ c :: post) c = len pre.
Proof.
  intros Hpost. unfold LastIndexByte, len.
  assert (HL : length (pre ++ c :: post) = (length pre + S (length post))%nat)
    by (rewrite length_app; done).
  destruct (lastIndexByteBelow_spec (pre ++ c :: post) c (length (pre ++ c :: post)))
    as [[_ Hno]|(i & Hi & -> & Hc & Hlast)].
  - exfalso. apply (Hno (length pre)); [lia|].
    apply list_lookup_middle. done.
  - f_equal. destruct (Nat.lt_trichotomy i (length pre)) as [Hlt|[->|Hgt]]; [|done|].
    + exfalso. apply (Hlast (length pre)); [lia|]. now apply list_lookup_middle.
    + exfalso. apply Hpost.
      rewrite lookup_app_r in Hc by lia.
      destruct (i - length pre)%nat as [|k] eqn:Ek; [lia|]. simpl in Hc.
      eapply list_elem_of_lookup_2. exact Hc.
Qed.

End GoStringsFacts.

(** ** [strings]: splitting and trimming *)

Module SplitTrimFacts.
Import GoStrings Grammar.

Lemma Split_length (s : gostring) (sep : ascii) : (1 <= length (Split s sep))%nat.
Proof.
  induction s as [|c s IH]; simpl; [lia|].
  case_bool_decide; simpl; [lia|].
  destruct (Split s sep); simpl in *; lia.
Qed.

Lemma Split_nil (sep : ascii) : Split [] sep = [[]].
Proof. reflexivity. Qed.

Lemma asciiSpace_cases (c : ascii) :
  asciiSpace c = true ->
  c ∈ map bytechar [9; 10; 11; 12; 13; 32].
Proof.
  unfold asciiSpace. rewrite !orb_true_iff, !Z.eqb_eq. unfold byteval.
  intros H.
  assert (Hc : c = ascii_of_N (N_of_ascii c)) by (symmetry; apply ascii_N_embedding).
  rewrite Hc. unfold bytechar.
  destruct H as [[[[[H|H]|H]|H]|H]|H];
    apply (f_equal Z.to_N) in H; rewrite N2Z.id in H; rewrite H; simpl;
    rewrite !elem_of_cons; repeat (first [left; reflexivity | right]).
Qed.

Lemma HasPrefix_cons1 (c x : ascii) (s : gostring) :
  HasPrefix (c :: s) [x] = bool_decide (c = x).
Proof.
  unfold HasPrefix. change (take (length [x]) (c :: s)) with [c].
  change (length [x] <=? length (c :: s))%nat with true. rewrite andb_true_l.
  apply bool_decide_ext. split; [intros [= ->] | intros ->]; done.
Qed.

Lemma leadingWidth_asciiSpace (c : ascii) (s : gostring) :
  asciiSpace c = true -> leadingWidth spaces (c :: s) = 1%nat.
Proof.
  intros H. apply asciiSpace_cases in H.
  unfold leadingWidth, spaces, spaceEncodings.
  repeat (apply elem_of_cons in H as [->|H]);
    [simpl map at 1; simpl find; rewrite ?HasPrefix_cons1; reflexivity ..|].
  now apply elem_of_nil in H.
Qed.

Lemma TrimLeftSpace_all_space (s : gostring) :
  forallb asciiSpace s = true -> TrimLeftSpace s = [].
Proof.
  unfold TrimLeftSpace. induction s as [|c s IH]; [done|].
  simpl forallb. rewrite andb_true_iff. intros [Hc Hs].
  change (trimLeading spaces 0 (c :: s))
    with (match leadingWidth spaces (c :: s) with
          | O => c :: s
          | S w => trimLeading spaces w s
          end).
  rewrite (leadingWidth_asciiSpace c s Hc). auto.
Qed.

(** A text made of ASCII white space only is trimmed to the empty string. *)
Lemma TrimSpace_all_space (s : gostring) :
  forallb asciiSpace s = true -> TrimSpace s = [].
Proof.
  intros H. unfold TrimSpace. rewrite (TrimLeftSpace_all_space s H). reflexivity.
Qed.

End SplitTrimFacts.

(** ** [strconv.Atoi] *)

Module StrconvFacts.
Import Strconv.

Lemma maxUint64_val : maxUint64 = 18446744073709551615.
Proof. reflexivity. Qed.
Lemma maxInt_val : maxInt = 9223372036854775807.
Proof. reflexivity. Qed.
Lemma minInt_val : minInt = -9223372036854775808.
Proof. reflexivity. Qed.

Lemma digitVal_range (c : ascii) (d : Z) : digitVal c = Some d -> 0 <= d <= 9.
Proof.
  unfold digitVal. destruct ((48 <=? byteval c) && (byteval c <=? 57)) eqn:E; [|discriminate].
  apply andb_true_iff in E as [E1 E2]. apply Z.leb_le in E1, E2.
  intros [= <-]. lia.
Qed.

Lemma atoiDigits_bound (s : gostring) (n v : Z) :
  0 <= n -> atoiDigits s n = Some v ->
  n <= v /\ v < (n + 1) * 10 ^ len s.
Proof.
  revert n. induction s as [|c s IH]; intros n Hn; simpl.
  - intros [= <-]. change (len []) with 0. lia.
  - destruct (digitVal c) as [d|] eqn:Hd; [|discriminate].
    apply digitVal_range in Hd. intros Hv.
    apply IH in Hv; [|lia]. destruct Hv as [Hlo Hhi].
    split; [lia|].
    replace (len (c :: s)) with (len s + 1) by (unfold len; simpl; lia).
    rewrite Z.pow_add_r by (unfold len; lia).
    assert (0 < 10 ^ len s) by (apply Z.pow_pos_nonneg; unfold len; lia).
    nia.
Qed.

Lemma parseUintLoop_spec (s : gostring) (n : Z) :
  0 <= n <= maxUint64 ->
  let r := parseUintLoop s n in
  0 <= r.1 <= maxUint64 /\
  (r.2 = Some ErrSyntax -> r.1 = 0) /\
  (r.2 = Some ErrRange -> r.1 = maxUint64).
Proof.
  revert n. induction s as [|c s IH]; intros n Hn; simpl.
  - repeat split; try lia; discriminate.
  - destruct (digitVal c) as [d|] eqn:Hd.
    + apply digitVal_range in Hd.
      destruct (maxUint64 / 10 + 1 <=? n) eqn:E1; simpl.
      { rewrite maxUint64_val. repeat split; try lia; discriminate. }
      destruct (maxUint64 <? n * 10 + d) eqn:E2; simpl.
      { rewrite maxUint64_val. repeat split; try lia; discriminate. }
      apply Z.ltb_ge in E2. apply IH. lia.
    + simpl. rewrite maxUint64_val. repeat split; try lia; discriminate.
Qed.

Lemma ParseUint_spec (s : gostring) :
  let r := ParseUint s in
  0 <= r.1 <= maxUint64 /\
  (r.2 = Some ErrSyntax -> r.1 = 0) /\
  (r.2 = Some ErrRange -> r.1 = maxUint64).
Proof.
  destruct s as [|c s].
  - simpl. rewrite maxUint64_val. repeat split; try lia; discriminate.
  - apply (parseUintLoop_spec (c :: s) 0). rewrite maxUint64_val. lia.
Qed.

Lemma ParseInt_spec (s : gostring) :
  let r := ParseInt s in
  minInt <= r.1 <= maxInt /\
  (r.2 = Some ErrSyntax -> r.1 = 0) /\
  (r.2 = Some ErrRange -> r.1 = maxInt \/ r.1 = minInt) /\
  (r.1 < 0 -> exists s', s = "-"%char :: s').
Proof.
  rewrite maxInt_val, minInt_val.
  destruct s as [|c s]; simpl.
  { repeat split; try lia; discriminate. }
  set (digits := if bool_decide (c = "+"%char) || bool_decide (c = "-"%char) then s else c :: s).
  pose proof (ParseUint_spec digits) as (Hr & Hsyn & Hrng).
  destruct (ParseUint digits) as [un [[]|]] eqn:EU; simpl in *.
  - repeat split; try lia; discriminate.
  - specialize (Hrng eq_refl). rewrite maxUint64_val in Hrng. subst un.
    case_bool_decide as Hneg; simpl.
    + subst c. repeat split; try lia; try discriminate; eauto.
    + repeat split; try lia; try discriminate; auto.
  - change (2 ^ 63) with 9223372036854775808.
    case_bool_decide as Hneg; simpl.
    + subst c. destruct (9223372036854775808 <? un) eqn:E; simpl.
      * repeat split; try lia; try discriminate; eauto.
      * apply Z.ltb_ge in E. repeat split; try lia; try discriminate; eauto.
    + destruct (9223372036854775808 <=? un) eqn:E; simpl.
      * repeat split; try lia; try discriminate; auto.
      * apply Z.leb_gt in E. repeat split; try lia; try discriminate.
Qed.

(** What [Atoi] can return: a value of the [int] range; [0] with a syntax
    error; an extreme value with a range error; a negative value only
    for a text that starts with a minus sign. *)
Lemma Atoi_spec (s : gostring) :
  let r := Atoi s in
  minInt <= r.1 <= maxInt /\
  (r.2 = Some ErrSyntax -> r.1 = 0) /\
  (r.2 = Some ErrRange -> r.1 = maxInt \/ r.1 = minInt) /\
  (r.1 < 0 -> exists s', s = "-"%char :: s').
Proof.
  unfold Atoi. destruct ((0 <? len s) && (len s <? 19)) eqn:Efast; [|apply ParseInt_spec].
  apply andb_true_iff in Efast as [E1 E2]. apply Z.ltb_lt in E1, E2.
  rewrite maxInt_val, minInt_val.
  destruct s as [|c s]; simpl.
  { repeat split; try lia; discriminate. }
  set (signed := bool_decide (c = "-"%char) || bool_decide (c = "+"%char)).
  set (digits := if signed then s else c :: s).
  destruct (signed && (len digits <? 1)); simpl.
  { repeat split; try lia; discriminate. }
  destruct (atoiDigits digits 0) as [n|] eqn:En; simpl.
  2: { repeat split; try lia; discriminate. }
  apply atoiDigits_bound in En; [|lia].
  assert (Hd : len digits <= 18).
  { subst digits. destruct signed; unfold len in *; simpl in *; lia. }
  assert (Hp : 10 ^ len digits <= 10 ^ 18).
  { apply Z.pow_le_mono_r; [lia|]. exact Hd. }
  change (10 ^ 18) with 1000000000000000000 in Hp.
  case_bool_decide as Hneg.
  - subst c. repeat split; try lia; try discriminate; eauto.
  - repeat split; try lia; discriminate.
Qed.

End StrconvFacts.

(** ** [trimPath] and [functionName] *)

Module NormalizerFacts.
Import GoStrings Grammar withstack GoStringsFacts.

Lemma bind_Returns {A B} (a : A) (f : A -> outcome B) : (Returns a ≫= f) = f a.
Proof. reflexivity. Qed.

Lemma len_lit_src : len (lit "/src/") = 5.
Proof. reflexivity. Qed.

Lemma trimPath_lastCut (filename pre post : gostring) :
  lastCut (lit "/src/") filename pre post -> trimPath filename = Returns post.
Proof.
  intros Hcut. unfold trimPath. cbv zeta.
  rewrite (LastIndex_lastCut _ _ _ _ Hcut).
  destruct Hcut as [Hs _].
  assert (Hlen : len filename = len pre + 5 + len post).
  { rewrite Hs, !len_app, len_lit_src. lia. }
  pose proof (len_nonneg pre). pose proof (len_nonneg post).
  destruct (len pre =? -1) eqn:E; [apply Z.eqb_eq in E; lia|].
  rewrite slice_from_Returns by (rewrite len_lit_src; lia).
  f_equal. rewrite Hs, len_lit_src. unfold len.
  replace (Z.to_nat (Z.of_nat (length pre) + 5)) with (length (pre ++ lit "/src/")).
  - rewrite app_assoc. apply drop_app_length.
  - rewrite length_app. change (length (lit "/src/")) with 5%nat. lia.
Qed.

Lemma trimPath_no_marker (filename : gostring) :
  ~ occurs (lit "/src/") filename -> trimPath filename = Returns filename.
Proof.
  intros Hno. unfold trimPath. cbv zeta.
  apply LastIndex_none in Hno. rewrite Hno. reflexivity.
Qed.

(** [trimPath] never panics. *)
Lemma trimPath_total (filename : gostring) :
  exists r, trimPath filename = Returns r /\ (length r <= length filename)%nat.
Proof.
  destruct (LastIndex_cases filename (lit "/src/")) as [[_ Hno]|(pre & post & Hcut & _)].
  - exists filename. split; [|lia]. now apply trimPath_no_marker.
  - exists post. split; [exact (trimPath_lastCut _ _ _ Hcut)|].
    destruct Hcut as [-> _]. rewrite !length_app. lia.
Qed.

Lemma lastCut_byte (c : ascii) (pre post : gostring) :
  c ∉ post -> lastCut [c] (pre ++ c :: post) pre post.
Proof.
  intros Hpost. split; [reflexivity|].
  intros pre' post' Hs'.
  destruct (decide (length pre' <= length pre)%nat) as [|Hgt]; [done|].
  exfalso. apply Hpost.
  assert (Hc : (pre ++ c :: post) !! length pre' = Some c).
  { rewrite Hs'. now apply list_lookup_middle. }
  rewrite lookup_app_r in Hc by lia.
  destruct (length pre' - length pre)%nat as [|k] eqn:Ek; [lia|]. simpl in Hc.
  eapply list_elem_of_lookup_2. exact Hc.
Qed.

Lemma occurs_byte (c : ascii) (s : gostring) : occurs [c] s -> c ∈ s.
Proof.
  intros (pre & post & ->). apply elem_of_app. right. simpl. apply elem_of_cons. now left.
Qed.

Lemma functionName_lastCut (fnName pre post : gostring) :
  lastCut (lit ".") fnName pre post ->
  functionName fnName = Returns (pre, Replace post middleDot (lit ".")).
Proof.
  intros Hcut. unfold functionName. cbv zeta.
  rewrite (LastIndex_lastCut _ _ _ _ Hcut).
  destruct Hcut as [Hs _]. change (lit ".") with ["."%char] in Hs. simpl in Hs.
  assert (Hlen : len fnName = len pre + 1 + len post).
  { rewrite Hs. unfold len. rewrite length_app. simpl. lia. }
  pose proof (len_nonneg pre). pose proof (len_nonneg post).
  destruct (len pre =? -1) eqn:E; [apply Z.eqb_eq in E; lia|]. simpl negb. cbv iota.
  rewrite slice_to_Returns by lia. rewrite bind_Returns.
  rewrite slice_from_Returns by lia. rewrite !bind_Returns.
  unfold mret, outcome_ret. do 2 f_equal.
  - rewrite Hs. unfold len. rewrite Nat2Z.id. apply take_app_length.
  - f_equal. rewrite Hs. unfold len.
    replace (Z.to_nat (Z.of_nat (length pre) + 1)) with (length (pre ++ ["."%char])).
    + rewrite (cons_middle _ pre post), app_assoc. apply drop_app_length.
    + rewrite length_app. simpl. lia.
Qed.

(** Split at the last period. *)
Lemma functionName_dot (pre post : gostring) :
  "."%char ∉ post ->
  functionName (pre ++ "."%char :: post) = Returns (pre, Replace post middleDot (lit ".")).
Proof.
  intros Hpost. apply functionName_lastCut. now apply (lastCut_byte "."%char).
Qed.

(** No period: the package is empty. *)
Lemma functionName_nodot (fnName : gostring) :
  "."%char ∉ fnName ->
  functionName fnName = Returns ([], Replace fnName middleDot (lit ".")).
Proof.
  intros Hno. unfold functionName. cbv zeta.
  assert (E : LastIndex fnName (lit ".") = -1).
  { apply LastIndex_none. intros Hocc. apply Hno. now apply occurs_byte. }
  rewrite E. reflexivity.
Qed.

(** [functionName] never panics. *)
Lemma functionName_total (fnName : gostring) :
  exists pack name, functionName fnName = Returns (pack, name).
Proof.
  destruct (LastIndex_cases fnName (lit ".")) as [[E _]|(pre & post & Hcut & _)].
  - eexists _, _. unfold functionName. cbv zeta. rewrite E. reflexivity.
  - eexists _, _. exact (functionName_lastCut _ _ _ Hcut).
Qed.

(** *** Replacing the middle dots *)

Lemma Replace_nil (old new : gostring) : Replace [] old new = [].
Proof. reflexivity. Qed.

Lemma Replace_hit (rest : gostring) :
  Replace (middleDot ++ rest) middleDot (lit ".") = lit "." ++ Replace rest middleDot (lit ".").
Proof.
  unfold Replace, middleDot. simpl app at 1.
  unfold replaceFrom at 1. fold replaceFrom.
  replace (HasPrefix (bytechar 194 :: bytechar 183 :: rest) [bytechar 194; bytechar 183]) with true.
  - reflexivity.
  - symmetry. apply HasPrefix_true. now exists rest.
Qed.

Lemma Replace_miss (c : ascii) (s : gostring) :
  HasPrefix (c :: s) middleDot = false ->
  Replace (c :: s) middleDot (lit ".") = c :: Replace s middleDot (lit ".").
Proof.
  intros H. unfold Replace. unfold replaceFrom at 1. fold replaceFrom. now rewrite H.
Qed.

Lemma occurs_cons (sub s : gostring) (c : ascii) : occurs sub s -> occurs sub (c :: s).
Proof. intros (pre & post & ->). now exists (c :: pre), post. Qed.

Lemma HasPrefix_occurs (s sub : gostring) : HasPrefix s sub = true -> occurs sub s.
Proof. intros H. apply HasPrefix_true in H as [r ->]. now exists [], r. Qed.

(** A segment without middle dot is copied, and the dot after it replaced. *)
Lemma Replace_segment (seg rest : gostring) :
  ~ occurs middleDot seg ->
  Replace (seg ++ middleDot ++ rest) middleDot (lit ".")
  = seg ++ lit "." ++ Replace rest middleDot (lit ".").
Proof.
  induction seg as [|c seg IH]; intros Hno.
  - apply Replace_hit.
  - simpl app. rewrite Replace_miss.
    + f_equal. apply IH. intros H. apply Hno. now apply occurs_cons.
    + destruct (HasPrefix (c :: seg ++ middleDot ++ rest) middleDot) eqn:E; [|done].
      exfalso. apply HasPrefix_true in E as [r E]. unfold middleDot in E. simpl in E.
      injection E as -> E. destruct seg as [|d seg]; simpl in E.
      * discriminate E.
      * injection E as -> E. apply Hno. now exists [], seg.
Qed.

Lemma Replace_last_segment (seg : gostring) :
  ~ occurs middleDot seg -> Replace seg middleDot (lit ".") = seg.
Proof.
  induction seg as [|c seg IH]; intros Hno; [done|].
  rewrite Replace_miss.
  - f_equal. apply IH. intros H. apply Hno. now apply occurs_cons.
  - destruct (HasPrefix (c :: seg) middleDot) eqn:E; [|done].
    exfalso. apply Hno. now apply HasPrefix_occurs.
Qed.

(** Every middle dot is replaced: a name cut into segments at its middle
    dots comes back with periods between the segments. *)
Lemma Replace_join (segs : list gostring) :
  Forall (fun seg => ~ occurs middleDot seg) segs ->
  Replace (join middleDot segs) middleDot (lit ".") = join (lit ".") segs.
Proof.
  induction segs as [|seg segs IH]; intros Hall; [done|].
  apply Forall_cons in Hall as [Hseg Hall].
  destruct segs as [|seg' segs].
  - simpl. now apply Replace_last_segment.
  - change (join middleDot (seg :: seg' :: segs))
      with (seg ++ middleDot ++ join middleDot (seg' :: segs)).
    change (join (lit ".") (seg :: seg' :: segs))
      with (seg ++ lit "." ++ join (lit ".") (seg' :: segs)).
    rewrite Replace_segment by done. now rewrite IH.
Qed.

(** Every name can be cut that way. *)
Lemma segments_exist (s : gostring) :
  exists segs, segs <> [] /\ s = join middleDot segs /\
               Forall (fun seg => ~ occurs middleDot seg) segs.
Proof.
  remember (length s) as n eqn:Hn. revert s Hn.
  induction n as [n IH] using lt_wf_ind. intros s Hn.
  destruct s as [|c s].
  { exists [[]]. repeat split; [done|]. constructor; [|constructor].
    intros (pre & post & H). destruct pre; discriminate H. }
  destruct (HasPrefix (c :: s) middleDot) eqn:E.
  - apply HasPrefix_true in E as [r E].
    destruct (IH (length r)) with (s := r) as (segs & Hne & Hr & Hall); [|done|].
    { subst n. rewrite E, length_app. simpl. lia. }
    exists ([] :: segs). split; [done|]. split.
    + rewrite E. destruct segs as [|seg segs]; [done|]. simpl. now rewrite Hr.
    + constructor; [|done]. intros (pre & post & H). destruct pre; discriminate H.
  - destruct (IH (length s)) with (s := s) as (segs & Hne & Hs & Hall); [|done|].
    { subst n. simpl. lia. }
    destruct segs as [|seg segs]; [done|].
    apply Forall_cons in Hall as [Hseg Hall].
    exists ((c :: seg) :: segs). split; [done|]. split.
    + rewrite Hs. destruct segs; reflexivity.
    + constructor; [|done].
      intros (pre & post & H). destruct pre as [|p pre].
      * simpl in H. unfold middleDot in H. injection H as -> H.
        assert (HasPrefix (bytechar 194 :: s) middleDot = true); [|congruence].
        apply HasPrefix_true. rewrite Hs, H.
        destruct segs; simpl; eexists; reflexivity.
      * simpl in H. injection H as -> H. apply Hseg. now exists pre, post.
Qed.

End NormalizerFacts.

(** ** [parsePrintedStackEntry] *)

Module EntryFacts.
Import GoStrings Strconv Grammar withstack GoStringsFacts StrconvFacts NormalizerFacts.

Lemma index_middle {A} (pre : list A) (x : A) (rest : list A) :
  index (pre ++ x :: rest) (len pre) = Returns x.
Proof.
  apply index_Returns; [apply len_nonneg|].
  unfold len. rewrite Nat2Z.id. now apply list_lookup_middle.
Qed.

Lemma index_middle_next {A} (pre : list A) (x y : A) (rest : list A) :
  index (pre ++ x :: y :: rest) (len pre + 1) = Returns y.
Proof.
  rewrite (cons_middle x pre (y :: rest)), app_assoc.
  replace (len pre + 1) with (len (pre ++ [x])).
  - apply index_middle.
  - rewrite len_app. reflexivity.
Qed.

Lemma len_cons {A} (x : A) (l : list A) : len (x :: l) = len l + 1.
Proof. unfold len. simpl. lia. Qed.

(** A byte either is absent or has a last occurrence. *)
Lemma last_byte_cut (c : ascii) (s : gostring) :
  c ∉ s \/ exists p q, s = p ++ c :: q /\ c ∉ q.
Proof.
  induction s as [|a s IH].
  - left. apply not_elem_of_nil.
  - destruct IH as [Hno|(p & q & -> & Hq)].
    + destruct (decide (a = c)) as [->|Hne].
      * right. now exists [], s.
      * left. intros [|]%elem_of_cons; congruence.
    + right. now exists (a :: p), q.
Qed.

(** No tab-prefixed line follows: one line is read. *)
Lemma entry_untabbed (pre : list gostring) (fn : gostring) (rest : list gostring) :
  match rest with
  | [] => True
  | next :: _ => HasPrefix next [tab] = false
  end ->
  parsePrintedStackEntry (pre ++ fn :: rest) (len pre) = Returns (len pre, [], 0, fn).
Proof.
  intros Hrest. unfold parsePrintedStackEntry.
  rewrite index_middle, bind_Returns.
  rewrite len_app, len_cons.
  pose proof (len_nonneg rest) as Hr.
  destruct rest as [|next rest].
  - change (len []) with 0.
    replace (len pre <? len pre + (0 + 1) - 1) with false by (symmetry; apply Z.ltb_ge; lia).
    reflexivity.
  - rewrite len_cons. pose proof (len_nonneg rest).
    replace (len pre <? len pre + (len rest + 1 + 1) - 1) with true
      by (symmetry; apply Z.ltb_lt; lia).
    rewrite index_middle_next, bind_Returns. unfold mret, outcome_ret.
    rewrite bind_Returns, Hrest. reflexivity.
Qed.

(** A tab-prefixed line follows: the text after its last colon goes to
    [strconv.Atoi]. *)
Lemma entry_tabbed_colon (pre : list gostring) (fn next : gostring) (rest : list gostring)
      (file lineStr : gostring) :
  HasPrefix next [tab] = true ->
  TrimSpace next = file ++ ":"%char :: lineStr ->
  ":"%char ∉ lineStr ->
  parsePrintedStackEntry (pre ++ fn :: next :: rest) (len pre)
  = Returns (len pre + 1, file, (Atoi lineStr).1, fn).
Proof.
  intros Htab Htrim Hlast. unfold parsePrintedStackEntry.
  rewrite index_middle, bind_Returns.
  rewrite len_app, !len_cons. pose proof (len_nonneg rest).
  replace (len pre <? len pre + (len rest + 1 + 1) - 1) with true
    by (symmetry; apply Z.ltb_lt; lia).
  rewrite index_middle_next, bind_Returns. unfold mret, outcome_ret.
  rewrite bind_Returns, Htab, bind_Returns. cbv zeta.
  rewrite Htrim, (LastIndexByte_last file lineStr ":"%char Hlast).
  pose proof (len_nonneg file). pose proof (len_nonneg lineStr).
  destruct (len file =? -1) eqn:E; [apply Z.eqb_eq in E; lia|].
  assert (Hlen : len (file ++ ":"%char :: lineStr) = len file + 1 + len lineStr).
  { rewrite len_app, len_cons. lia. }
  rewrite slice_to_Returns by lia. rewrite bind_Returns.
  rewrite slice_from_Returns by lia. rewrite !bind_Returns.
  unfold len. rewrite Nat2Z.id, take_app_length.
  replace (Z.to_nat (Z.of_nat (length file) + 1)) with (length (file ++ [":"%char]))
    by (rewrite length_app; simpl; lia).
  rewrite (cons_middle _ file lineStr), app_assoc, drop_app_length.
  reflexivity.
Qed.

(** A tab-prefixed line without colon: all of it is the file. *)
Lemma entry_tabbed_nocolon (pre : list gostring) (fn next : gostring) (rest : list gostring) :
  HasPrefix next [tab] = true ->
  ":"%char ∉ TrimSpace next ->
  parsePrintedStackEntry (pre ++ fn :: next :: rest) (len pre)
  = Returns (len pre + 1, TrimSpace next, 0, fn).
Proof.
  intros Htab Hno. unfold parsePrintedStackEntry.
  rewrite index_middle, bind_Returns.
  rewrite len_app, !len_cons. pose proof (len_nonneg rest).
  replace (len pre <? len pre + (len rest + 1 + 1) - 1) with true
    by (symmetry; apply Z.ltb_lt; lia).
  rewrite index_middle_next, bind_Returns. unfold mret, outcome_ret.
  rewrite bind_Returns, Htab, bind_Returns. cbv zeta.
  apply LastIndexByte_none in Hno. rewrite Hno. reflexivity.
Qed.

Lemma entry_tabbed (pre : list gostring) (fn next : gostring) (rest : list gostring) :
  HasPrefix next [tab] = true ->
  exists file line,
    parsePrintedStackEntry (pre ++ fn :: next :: rest) (len pre)
    = Returns (len pre + 1, file, line, fn) /\
    parsePrintedStackEntry [fn; next] 0 = Returns (1, file, line, fn) /\
    fileAndLine next file line.
Proof.
  intros Htab.
  destruct (last_byte_cut ":"%char (TrimSpace next)) as [Hno|(p & q & Hcut & Hq)].
  - exists (TrimSpace next), 0. split; [now apply entry_tabbed_nocolon|].
    split; [now apply (entry_tabbed_nocolon [] fn next [])|].
    left. auto.
  - exists p, (Atoi q).1. split; [now apply entry_tabbed_colon|].
    split; [now apply (entry_tabbed_colon [] fn next [])|].
    right. now exists q.
Qed.

End EntryFacts.

(** ** The loops of [parsePrintedStack] *)

Module LoopFacts.
Import GoStrings Strconv Grammar withstack.
Import GoStringsFacts SplitTrimFacts StrconvFacts NormalizerFacts EntryFacts.

(** Composing a frame never panics, and keeps the fields it is given. *)
Lemma newFrame_total (file : gostring) (line : Z) (fnName : gostring) :
  exists fr, newFrame file line fnName = Returns fr /\
             AbsolutePath fr = file /\ Lineno fr = line /\ InApp fr = false.
Proof.
  unfold newFrame.
  destruct (trimPath_total file) as (filename & -> & _). rewrite bind_Returns. cbv zeta.
  destruct (negb (bool_decide (fnName = unknown))).
  - destruct (functionName_total fnName) as (pack & name & ->). rewrite bind_Returns.
    eexists. split; [reflexivity|]. simpl. auto.
  - eexists. split; [reflexivity|]. simpl. auto.
Qed.

Lemma entries_cons_tabbed (fn next : gostring) (rest : list gostring) :
  HasPrefix next [tab] = true ->
  entries (fn :: next :: rest) = (fn, Some next) :: entries rest.
Proof. intros H. simpl. now rewrite H. Qed.

Lemma entries_cons_untabbed (fn next : gostring) (rest : list gostring) :
  HasPrefix next [tab] = false ->
  entries (fn :: next :: rest) = (fn, None) :: entries (next :: rest).
Proof. intros H. simpl. now rewrite H. Qed.

Lemma entries_length (lines : list gostring) :
  lines <> [] -> (1 <= length (entries lines))%nat.
Proof.
  destruct lines as [|fn [|next rest]]; [done| simpl; lia |].
  intros _. simpl. destruct (HasPrefix next [tab]); simpl; lia.
Qed.

Lemma entry_single (fn : gostring) :
  parsePrintedStackEntry [fn] 0 = Returns (0, [], 0, fn).
Proof. reflexivity. Qed.

(** With fuel for every remaining line, the loop appends the frames of the
    entries that remain, in their order. *)
Lemma parseLoop_entries (rest : list gostring) :
  forall (pre : list gostring) (frames : list frame) (fuel : nat),
    (length rest <= fuel)%nat ->
    exists fs,
      parseLoop fuel (pre ++ rest) (len pre) frames = Returns (frames ++ fs) /\
      Forall2 (fun e fr => frameOfEntry e = Returns fr) (entries rest) fs.
Proof.
  remember (length rest) as n eqn:Hn. revert rest Hn.
  induction n as [n IH] using lt_wf_ind. intros rest Hn pre frames fuel Hfuel.
  destruct rest as [|fn rest].
  { exists []. split; [|constructor].
    rewrite !app_nil_r. destruct fuel; simpl; now rewrite Z.ltb_irrefl. }
  simpl in Hn. destruct fuel as [|fuel]; [lia|].
  assert (Hlt : (len pre <? len (pre ++ fn :: rest)) = true).
  { apply Z.ltb_lt. rewrite len_app, len_cons. pose proof (len_nonneg rest). lia. }
  unfold parseLoop. fold parseLoop. rewrite Hlt.
  assert (Hun : match rest with
                | [] => True
                | next :: _ => HasPrefix next [tab] = false
                end ->
                exists fs,
                  (parsePrintedStackEntry (pre ++ fn :: rest) (len pre)
                     ≫= λ '(nextI, file, line, fnName),
                       let i := nextI in
                       newFrame file line fnName
                         ≫= λ fr, parseLoop fuel (pre ++ fn :: rest) (i + 1) (frames ++ [fr]))
                  = Returns (frames ++ fs) /\
                  Forall2 (fun e fr => frameOfEntry e = Returns fr)
                          ((fn, None) :: entries rest) fs).
  { intros Hrest.
    rewrite (entry_untabbed pre fn rest Hrest), bind_Returns. cbv zeta.
    destruct (newFrame_total [] 0 fn) as (fr & Hfr & _). rewrite Hfr, bind_Returns.
    destruct (IH (length rest)) with (rest := rest) (pre := pre ++ [fn])
      (frames := frames ++ [fr]) (fuel := fuel) as (fs & Hloop & Hfs); [lia|done|lia|].
    rewrite <- app_assoc in Hloop. simpl in Hloop.
    rewrite len_app in Hloop. change (len [fn]) with 1 in Hloop.
    exists (fr :: fs). split.
    - rewrite Hloop, <- app_assoc. reflexivity.
    - constructor; [|done]. unfold frameOfEntry. simpl entryLines.
      rewrite (entry_single fn), bind_Returns. exact Hfr. }
  destruct rest as [|next rest].
  { destruct (Hun I) as (fs & Hloop & Hfs). exists fs. split; [done|]. exact Hfs. }
  destruct (HasPrefix next [tab]) eqn:Htab.
  - destruct (entry_tabbed pre fn next rest Htab) as (file & line & He & He0 & _).
    rewrite He, bind_Returns. cbv zeta.
    destruct (newFrame_total file line fn) as (fr & Hfr & _). rewrite Hfr, bind_Returns.
    destruct (IH (length rest)) with (rest := rest) (pre := pre ++ [fn; next])
      (frames := frames ++ [fr]) (fuel := fuel) as (fs & Hloop & Hfs);
      [simpl in Hn; lia|done|simpl in Hn; lia|].
    rewrite <- app_assoc in Hloop. simpl in Hloop.
    rewrite len_app in Hloop. change (len [fn; next]) with 2 in Hloop.
    replace (len pre + 1 + 1) with (len pre + 2) by lia.
    exists (fr :: fs). split.
    + rewrite Hloop, <- app_assoc. reflexivity.
    + rewrite (entries_cons_tabbed fn next rest Htab).
      constructor; [|done]. unfold frameOfEntry. simpl entryLines.
      rewrite He0, bind_Returns. exact Hfr.
  - destruct (Hun eq_refl) as (fs & Hloop & Hfs). exists fs. split; [done|].
    now rewrite (entries_cons_untabbed fn next rest Htab).
Qed.

(** The frames collected from a text are those of its entries. *)
Lemma collectFrames_entries (st : gostring) :
  exists fs,
    collectFrames st = Returns fs /\
    Forall2 (fun e fr => frameOfEntry e = Returns fr)
            (entries (Split (TrimSpace st) newline)) fs.
Proof.
  unfold collectFrames. cbv zeta.
  destruct (parseLoop_entries (Split (TrimSpace st) newline) [] []
              (length (Split (TrimSpace st) newline))) as (fs & H & Hfs); [lia|].
  exists fs. split; [exact H | exact Hfs].
Qed.

Ltac solve_len :=
  unfold len; repeat (rewrite ?length_app; simpl length); lia.

Lemma insert_at_middle {A} (a : list A) (x y : A) (rest : list A) :
  <[length a := y]> (a ++ x :: rest) = a ++ y :: rest.
Proof. induction a as [|z a IH]; simpl; [done|]. now rewrite IH. Qed.

Lemma store_middle {A} (a : list A) (x y : A) (rest : list A) :
  store (a ++ x :: rest) (len a) y = Returns (a ++ y :: rest).
Proof.
  rewrite store_Returns.
  - f_equal. unfold len. rewrite Nat2Z.id. apply insert_at_middle.
  - split; [apply len_nonneg | solve_len].
Qed.

(** The swap loop reverses the part of the slice between its two indices. *)
Lemma reverseLoop_middle (fuel : nat) :
  forall (m a b : list frame),
    (length m <= fuel)%nat ->
    reverseLoop fuel (a ++ m ++ b) (len a) (len a + len m - 1)
    = Returns (a ++ reverse m ++ b).
Proof.
  induction fuel as [|fuel IH]; intros m a b Hfuel.
  { destruct m; [|simpl in Hfuel; lia]. simpl.
    change (len []) with 0.
    replace (len a <? len a + 0 - 1) with false by (symmetry; apply Z.ltb_ge; lia).
    reflexivity. }
  destruct m as [|x m].
  { simpl. change (len []) with 0.
    replace (len a <? len a + 0 - 1) with false by (symmetry; apply Z.ltb_ge; lia).
    reflexivity. }
  destruct m as [|y m _] using rev_ind.
  { simpl. change (len [x]) with 1.
    replace (len a <? len a + 1 - 1) with false by (symmetry; apply Z.ltb_ge; lia).
    reflexivity. }
  assert (Hj : len a + len (x :: m ++ [y]) - 1 = len (a ++ x :: m)).
  { solve_len. }
  rewrite Hj.
  assert (Hlt : (len a <? len (a ++ x :: m)) = true).
  { apply Z.ltb_lt. rewrite len_app, len_cons. pose proof (len_nonneg m). lia. }
  unfold reverseLoop. fold reverseLoop. rewrite Hlt.
  set (F := a ++ (x :: m ++ [y]) ++ b).
  assert (I1 : index F (len a) = Returns x).
  { replace F with (a ++ x :: (m ++ y :: b)); [apply index_middle|].
    unfold F. simpl. now rewrite <- app_assoc. }
  assert (I2 : index F (len (a ++ x :: m)) = Returns y).
  { replace F with ((a ++ x :: m) ++ y :: b); [apply index_middle|].
    unfold F. simpl. rewrite <- !app_assoc. reflexivity. }
  assert (S1 : store F (len a) y = Returns ((a ++ y :: m) ++ y :: b)).
  { replace F with (a ++ x :: (m ++ y :: b)).
    - rewrite store_middle. f_equal. now rewrite <- app_assoc.
    - unfold F. simpl. now rewrite <- app_assoc. }
  assert (S2 : store ((a ++ y :: m) ++ y :: b) (len (a ++ x :: m)) x
               = Returns ((a ++ [y]) ++ m ++ x :: b)).
  { replace (len (a ++ x :: m)) with (len (a ++ y :: m)) by solve_len.
    rewrite store_middle. f_equal. rewrite <- !app_assoc. reflexivity. }
  rewrite I1, bind_Returns, I2, bind_Returns, S1, bind_Returns, S2, bind_Returns.
  transitivity (reverseLoop fuel ((a ++ [y]) ++ m ++ x :: b)
                            (len (a ++ [y])) (len (a ++ [y]) + len m - 1)).
  { f_equal; solve_len. }
  rewrite IH.
  2: { simpl in Hfuel. rewrite length_app in Hfuel. simpl in Hfuel. lia. }
  f_equal. rewrite reverse_cons, reverse_snoc. rewrite <- !app_assoc. reflexivity.
Qed.

Lemma reverseLoop_reverse (frames : list frame) :
  reverseLoop (length frames) frames 0 (len frames - 1) = Returns (reverse frames).
Proof.
  pose proof (reverseLoop_middle (length frames) frames [] [] (Nat.le_refl _)) as H.
  simpl in H. rewrite app_nil_r in H. now rewrite app_nil_r in H.
Qed.

(** [parsePrintedStack] returns the frames of the entries, last entry
    first; there is always at least one. *)
Lemma parsePrintedStack_entries (st : gostring) :
  exists fs,
    fs <> [] /\
    Forall2 (fun e fr => frameOfEntry e = Returns fr)
            (entries (Split (TrimSpace st) newline)) fs /\
    collectFrames st = Returns fs /\
    parsePrintedStack st = Returns (Some {| Frames := reverse fs |}).
Proof.
  destruct (collectFrames_entries st) as (fs & Hc & Hfs).
  assert (Hne : fs <> []).
  { intros ->. apply Forall2_nil_inv_r in Hfs.
    pose proof (Split_length (TrimSpace st) newline) as Hl.
    destruct (Split (TrimSpace st) newline) as [|l ls]; [simpl in Hl; lia|].
    pose proof (entries_length (l :: ls) ltac:(done)) as He.
    rewrite Hfs in He. simpl in He. lia. }
  exists fs. repeat split; try done.
  unfold parsePrintedStack. rewrite Hc, bind_Returns.
  destruct fs as [|fr fs]; [done|].
  rewrite reverseLoop_reverse, bind_Returns. reflexivity.
Qed.

End LoopFacts.

(** ** Entries and their frames *)

Module ParserFacts.
Import GoStrings Strconv Grammar withstack.
Import GoStringsFacts SplitTrimFacts StrconvFacts NormalizerFacts EntryFacts LoopFacts.



(** [parsePrintedStackEntry] at any index within the lines. *)
Lemma entry_in_bounds (lines : list gostring) (i : Z) :
  0 <= i < len lines ->
  exists newI file line fnName,
    parsePrintedStackEntry lines i = Returns (newI, file, line, fnName) /\
    index lines i = Returns fnName /\
    i <= newI <= len lines - 1 /\ newI <= i + 1.
Proof.
  intros Hi.
  destruct (index_total lines i Hi) as (fn & Hfn & Hidx).
  pose proof (take_drop_middle lines (Z.to_nat i) fn Hfn) as Hsplit.
  set (pre := take (Z.to_nat i) lines) in *.
  set (rest := drop (S (Z.to_nat i)) lines) in *.
  assert (Hpre : len pre = i).
  { unfold len, pre. rewrite length_take. unfold len in Hi. lia. }
  assert (Hlen : len lines = i + 1 + len rest).
  { rewrite <- Hsplit, len_app, len_cons. lia. }
  pose proof (len_nonneg rest) as Hrest.
  rewrite <- Hsplit, <- Hpre in *.
  destruct rest as [|next rest'] eqn:Er.
  - exists (len pre), [], 0, fn. rewrite (entry_untabbed pre fn [] I).
    repeat split; try done; change (len []) with 0 in *; lia.
  - destruct (HasPrefix next [tab]) eqn:Htab.
    + destruct (entry_tabbed pre fn next rest' Htab) as (file & line & He & _).
      exists (len pre + 1), file, line, fn. rewrite He.
      rewrite len_cons in *. pose proof (len_nonneg rest').
      repeat split; try done; lia.
    + exists (len pre), [], 0, fn. rewrite (entry_untabbed pre fn (next :: rest') Htab).
      repeat split; try done; lia.
Qed.

Lemma entry_out_of_bounds (lines : list gostring) (i : Z) :
  ~ (0 <= i < len lines) -> parsePrintedStackEntry lines i = Panics.
Proof.
  intros Hi. unfold parsePrintedStackEntry, index.
  destruct ((0 <=? i) && (i <? len lines)) eqn:E; [|reflexivity].
  apply andb_true_iff in E as [E1 E2]. apply Z.leb_le in E1. apply Z.ltb_lt in E2. lia.
Qed.

(** The bytes of a join are those of its pieces and of the separator. *)
Lemma elem_of_join (c : ascii) (sep : gostring) (pieces : list gostring) :
  c ∈ join sep pieces -> c ∈ sep \/ exists p, p ∈ pieces /\ c ∈ p.
Proof.
  induction pieces as [|p ps IH]; intros Hin.
  - now apply elem_of_nil in Hin.
  - destruct ps as [|p' ps].
    + right. exists p. split; [apply elem_of_cons; now left | done].
    + change (join sep (p :: p' :: ps)) with (p ++ sep ++ join sep (p' :: ps)) in Hin.
      apply elem_of_app in Hin as [Hin|Hin].
      * right. exists p. split; [apply elem_of_cons; now left | done].
      * apply elem_of_app in Hin as [Hin|Hin]; [now left|].
        destruct (IH Hin) as [?|(q & Hq & Hc)]; [now left|].
        right. exists q. split; [apply elem_of_cons; now right | done].
Qed.

Lemma piece_in_join (c : ascii) (sep : gostring) (pieces : list gostring) (p : gostring) :
  p ∈ pieces -> c ∈ p -> c ∈ join sep pieces.
Proof.
  induction pieces as [|q qs IH]; intros Hp Hc.
  - now apply elem_of_nil in Hp.
  - destruct qs as [|q' qs].
    + apply list_elem_of_singleton in Hp as ->. exact Hc.
    + change (join sep (q :: q' :: qs)) with (q ++ sep ++ join sep (q' :: qs)).
      apply elem_of_cons in Hp as [->|Hp].
      * apply elem_of_app. now left.
      * apply elem_of_app. right. apply elem_of_app. right. now apply IH.
Qed.

Lemma period_not_in_middleDot : "."%char ∉ middleDot.
Proof.
  unfold middleDot. intros H.
  apply elem_of_cons in H as [H|H]; [discriminate H|].
  apply elem_of_cons in H as [H|H]; [discriminate H|].
  now apply elem_of_nil in H.
Qed.

(** A first byte that is no digit, or no byte at all, is a syntax error. *)
Lemma ParseInt_not_a_number (s : gostring) :
  match s with
  | [] => True
  | c :: s' =>
      let digits := if bool_decide (c = "+"%char) || bool_decide (c = "-"%char)
                    then s' else s in
      match digits with
      | [] => True
      | d :: _ => digitVal d = None
      end
  end ->
  ParseInt s = (0, Some ErrSyntax).
Proof.
  destruct s as [|c s]; [reflexivity|]. unfold ParseInt. cbv zeta.
  destruct (bool_decide (c = "+"%char) || bool_decide (c = "-"%char)).
  - destruct s as [|d s]; [reflexivity|]. intros Hd. simpl. now rewrite Hd.
  - intros Hd. simpl. now rewrite Hd.
Qed.

Lemma Atoi_not_a_number (s : gostring) :
  match s with
  | [] => True
  | c :: s' =>
      let digits := if bool_decide (c = "+"%char) || bool_decide (c = "-"%char)
                    then s' else s in
      match digits with
      | [] => True
      | d :: _ => digitVal d = None
      end
  end ->
  Atoi s = (0, Some ErrSyntax).
Proof.
  intros H. unfold Atoi.
  destruct ((0 <? len s) && (len s <? 19)) eqn:Efast; [|now apply ParseInt_not_a_number].
  destruct s as [|c s]; [reflexivity|]. cbv zeta in *.
  rewrite (orb_comm (bool_decide (c = "-"%char))).
  destruct (bool_decide (c = "+"%char) || bool_decide (c = "-"%char)).
  - destruct s as [|d s]; [reflexivity|].
    destruct (true && (len (d :: s) <? 1)); [reflexivity|].
    simpl atoiDigits. now rewrite H.
  - rewrite andb_false_l. simpl atoiDigits. now rewrite H.
Qed.

End ParserFacts.

(** * The properties of the specification *)

Module Spec.
Import GoStrings Strconv Grammar withstack.
Import GoStringsFacts SplitTrimFacts StrconvFacts NormalizerFacts EntryFacts LoopFacts ParserFacts.

(** C7. [trimPath]: when the marker [/src/] occurs in the path, the result
    is what follows its last occurrence, a proper suffix of the path;
    when it does not occur the path comes back unchanged.  The two paths
    of the specification are trimmed as it says. *)
Theorem trimPath_after_last_marker (filename : gostring) :
  (forall pre post, lastCut (lit "/src/") filename pre post ->
                    trimPath filename = Returns post) /\
  (occurs (lit "/src/") filename ->
   exists pre post, lastCut (lit "/src/") filename pre post /\
                    trimPath filename = Returns post /\
                    post `suffix_of` filename /\
                    (length post < length filename)%nat) /\
  (~ occurs (lit "/src/") filename -> trimPath filename = Returns filename) /\
  trimPath (lit "/home/x/src/pkg/file.go") = Returns (lit "pkg/file.go") /\
  trimPath (lit "/home/x/file.go") = Returns (lit "/home/x/file.go").
Proof.
  split; [intros pre post; apply trimPath_lastCut|].
  split; [|split; [apply trimPath_no_marker | split; reflexivity]].
  intros Hocc. destruct (LastIndex_found _ _ Hocc) as (pre & post & Hcut & _).
  exists pre, post. split; [exact Hcut|]. split; [exact (trimPath_lastCut _ _ _ Hcut)|].
  destruct Hcut as [Hs _]. split.
  - exists (pre ++ lit "/src/"). rewrite Hs. now rewrite <- app_assoc.
  - rewrite Hs, !length_app. change (length (lit "/src/")) with 5%nat. lia.
Qed.

Lemma trimPath_after_last_marker_witness :
  trimPath (lit "/a/src/b/src/c.go") = Returns (lit "c.go").
Proof.
  apply (proj1 (trimPath_after_last_marker (lit "/a/src/b/src/c.go")) (lit "/a/src/b")).
  apply lastCut_at_LastIndex; reflexivity.
Defined.

(** C8. [functionName]: the name is cut at its last period, the package
    before it and the function after it; a name without period has an
    empty package; in the function part every middle dot becomes a period.
    Here the function part is given by its segments between the middle
    dots, and every name has such a reading. *)
Theorem functionName_splits_at_last_period (fnName : gostring) :
  (forall pack segs,
      Forall (fun seg => ("."%char ∉ seg) /\ ~ occurs middleDot seg) segs ->
      fnName = pack ++ "."%char :: join middleDot segs ->
      functionName fnName = Returns (pack, join (lit ".") segs)) /\
  (forall segs,
      Forall (fun seg => ("."%char ∉ seg) /\ ~ occurs middleDot seg) segs ->
      fnName = join middleDot segs ->
      functionName fnName = Returns ([], join (lit ".") segs)) /\
  (exists segs,
      Forall (fun seg => ("."%char ∉ seg) /\ ~ occurs middleDot seg) segs /\
      (fnName = join middleDot segs \/
       exists pack, fnName = pack ++ "."%char :: join middleDot segs)) /\
  functionName (lit "pkg/sub.Func") = Returns (lit "pkg/sub", lit "Func") /\
  functionName (lit "Func") = Returns ([], lit "Func").
Proof.
  assert (Hnodot : forall segs,
             Forall (fun seg => ("."%char ∉ seg) /\ ~ occurs middleDot seg) segs ->
             "."%char ∉ join middleDot segs).
  { intros segs Hall Hin. apply elem_of_join in Hin as [Hin|(p & Hp & Hin)].
    - now apply period_not_in_middleDot.
    - rewrite Forall_forall in Hall. destruct (Hall p Hp) as [H _]. now apply H. }
  assert (Hmd : forall segs,
             Forall (fun seg => ("."%char ∉ seg) /\ ~ occurs middleDot seg) segs ->
             Forall (fun seg => ~ occurs middleDot seg) segs).
  { intros segs Hall. eapply Forall_impl; [exact Hall|]. now intros seg [_ H]. }
  split; [|split; [|split; [|split; reflexivity]]].
  - intros pack segs Hall ->.
    rewrite (functionName_dot pack _ (Hnodot segs Hall)).
    now rewrite (Replace_join segs (Hmd segs Hall)).
  - intros segs Hall ->.
    rewrite (functionName_nodot _ (Hnodot segs Hall)).
    now rewrite (Replace_join segs (Hmd segs Hall)).
  - assert (Hsegs : forall s, "."%char ∉ s ->
               exists segs, s = join middleDot segs /\
                 Forall (fun seg => ("."%char ∉ seg) /\ ~ occurs middleDot seg) segs).
    { intros s Hs. destruct (segments_exist s) as (segs & _ & Hjoin & Hall).
      exists segs. split; [exact Hjoin|].
      rewrite Forall_forall in Hall. apply Forall_forall.
      intros seg Hseg. split; [|now apply Hall].
      intros Hin. apply Hs. rewrite Hjoin. now apply (piece_in_join _ _ _ seg). }
    destruct (last_byte_cut "."%char fnName) as [Hno|(p & q & Hcut & Hq)].
    + destruct (Hsegs fnName Hno) as (segs & Hjoin & Hall).
      exists segs. split; [exact Hall|]. now left.
    + destruct (Hsegs q Hq) as (segs & Hjoin & Hall).
      exists segs. split; [exact Hall|]. right. exists p. now rewrite <- Hjoin.
Qed.

Lemma functionName_splits_at_last_period_witness :
  functionName (lit "a.b/c.glob" ++ middleDot ++ lit "func1" ++ middleDot ++ lit "2")
  = Returns (lit "a.b/c", lit "glob.func1.2").
Proof.
  apply (proj1 (functionName_splits_at_last_period _) (lit "a.b/c")
               [lit "glob"; lit "func1"; lit "2"]); [|reflexivity].
  repeat apply Forall_cons_2; try apply Forall_nil_2;
    (split; [apply (bool_decide_unpack _); vm_compute; exact I
            | apply LastIndex_none; reflexivity]).
Defined.

(** C10. A tab-prefixed second line with several colons is cut at the last
    one: the file is all that precedes it, colons included, and only what
    follows it is read as the line number. *)
Theorem second_line_cut_at_last_colon
        (pre : list gostring) (fn next : gostring) (rest : list gostring)
        (file lineStr : gostring) :
  HasPrefix next [tab] = true ->
  TrimSpace next = file ++ ":"%char :: lineStr ->
  (":"%char ∉ lineStr) ->
  parsePrintedStackEntry (pre ++ fn :: next :: rest) (len pre)
  = Returns (len pre + 1, file, (Atoi lineStr).1, fn).
Proof. apply entry_tabbed_colon. Qed.

Lemma second_line_cut_at_last_colon_witness :
  parsePrintedStackEntry [lit "main.main"; tab :: lit "C:/go/src/a:b/main.go:12"; lit "unknown"] 0
  = Returns (1, lit "C:/go/src/a:b/main.go", 12, lit "main.main").
Proof.
  apply (second_line_cut_at_last_colon [] (lit "main.main")
           (tab :: lit "C:/go/src/a:b/main.go:12") [lit "unknown"]
           (lit "C:/go/src/a:b/main.go") (lit "12")).
  - reflexivity.
  - reflexivity.
  - apply (bool_decide_unpack _). vm_compute. exact I.
Defined.

(** C6. An entry whose first line is [unknown] and which has no
    tab-prefixed second line takes one line and gives one frame: function
    and module [unknown], not in-app, line 0, empty paths. *)
Theorem unknown_entry_frame :
  (forall (pre rest : list gostring),
      match rest with
      | [] => True
      | next :: _ => HasPrefix next [tab] = false
      end ->
      parsePrintedStackEntry (pre ++ lit "unknown" :: rest) (len pre)
      = Returns (len pre, [], 0, lit "unknown")) /\
  newFrame [] 0 (lit "unknown") = Returns unknownFrame /\
  frameOfEntry (lit "unknown", None) = Returns unknownFrame /\
  parsePrintedStack (lit "unknown") = Returns (Some {| Frames := [unknownFrame] |}).
Proof.
  split; [|repeat split; reflexivity].
  intros pre rest Hrest. now apply entry_untabbed.
Qed.

Lemma unknown_entry_frame_witness :
  parsePrintedStackEntry [lit "main.main"; lit "unknown"; lit "runtime.goexit"] 1
  = Returns (1, [], 0, lit "unknown").
Proof.
  apply (proj1 unknown_entry_frame [lit "main.main"] [lit "runtime.goexit"]).
  reflexivity.
Defined.

(** C9. [parsePrintedStackEntry] called with an index within the lines
    reads only lines that exist: it returns, with the first line at that
    index and a new index within the lines (called outside them it
    panics on its first access); so the whole parse returns on every
    text, its loops having fuel enough. *)
Theorem parse_stays_in_bounds :
  (forall (lines : list gostring) (i : Z),
      0 <= i < len lines ->
      exists newI file line fnName,
        parsePrintedStackEntry lines i = Returns (newI, file, line, fnName) /\
        index lines i = Returns fnName /\
        i <= newI <= len lines - 1) /\
  (forall (lines : list gostring) (i : Z),
      ~ (0 <= i < len lines) -> parsePrintedStackEntry lines i = Panics) /\
  (forall (lines : list gostring) (fuel : nat),
      (length lines <= fuel)%nat ->
      exists frames, parseLoop fuel lines 0 [] = Returns frames) /\
  (forall st : gostring, exists r, parsePrintedStack st = Returns r).
Proof.
  repeat split.
  - intros lines i Hi.
    destruct (entry_in_bounds lines i Hi) as (newI & file & line & fn & He & Hidx & Hb & _).
    now exists newI, file, line, fn.
  - apply entry_out_of_bounds.
  - intros lines fuel Hfuel.
    destruct (parseLoop_entries lines [] [] fuel Hfuel) as (fs & H & _).
    now exists fs.
  - intros st. destruct (parsePrintedStack_entries st) as (fs & _ & _ & _ & H).
    eexists. exact H.
Qed.

Lemma parse_stays_in_bounds_witness :
  exists newI file line fnName,
    parsePrintedStackEntry [lit "f"; tab :: lit "x.go:3"] 0
    = Returns (newI, file, line, fnName) /\
    index [lit "f"; tab :: lit "x.go:3"] 0 = Returns fnName /\
    0 <= newI <= len [lit "f"; tab :: lit "x.go:3"] - 1.
Proof.
  apply (proj1 parse_stays_in_bounds [lit "f"; tab :: lit "x.go:3"] 0).
  vm_compute. split; [discriminate | reflexivity].
Defined.

(** C5, as the specification words it, does not hold: a numeric portion
    that [strconv.Atoi] rejects as out of range leaves the extreme value of
    that sign in the line number, not 0. *)
Lemma failed_parse_line_not_zero :
  ~ (forall fn next file lineStr : gostring,
        HasPrefix next [tab] = true ->
        TrimSpace next = file ++ ":"%char :: lineStr ->
        (":"%char ∉ lineStr) ->
        (Atoi lineStr).2 <> None ->
        exists newI f fnName,
          parsePrintedStackEntry [fn; next] 0 = Returns (newI, f, 0, fnName)).
Proof.
  intros H.
  destruct (H (lit "main.main") (tab :: lit "/a/main.go:9223372036854775808")
              (lit "/a/main.go") (lit "9223372036854775808"))
    as (newI & f & fnName & E).
  - reflexivity.
  - reflexivity.
  - apply (bool_decide_unpack _). vm_compute. exact I.
  - vm_compute. discriminate.
  - vm_compute in E. discriminate E.
Qed.

(** C5, amended.  A tab-prefixed second line never makes the entry fail:
    the entry takes two lines and a frame is composed.  Without colon the
    trimmed line is the file and the line number is 0.  With a colon, the
    text after the last one goes to [strconv.Atoi], whose value is kept
    whatever its error: 0 for a syntax error (as when that text is empty, a
    bare sign, or, after an optional sign, starts with a byte that is no
    digit), and [2^63-1] or [-2^63] for a range error. *)
Theorem second_line_never_fails
        (pre : list gostring) (fn next : gostring) (rest : list gostring) :
  HasPrefix next [tab] = true ->
  exists file line fr,
    parsePrintedStackEntry (pre ++ fn :: next :: rest) (len pre)
    = Returns (len pre + 1, file, line, fn) /\
    newFrame file line fn = Returns fr /\
    AbsolutePath fr = file /\ Lineno fr = line /\
    ((":"%char ∉ TrimSpace next) -> file = TrimSpace next /\ line = 0) /\
    (forall f lineStr,
        TrimSpace next = f ++ ":"%char :: lineStr -> (":"%char ∉ lineStr) ->
        file = f /\ line = (Atoi lineStr).1 /\
        ((Atoi lineStr).2 = Some ErrSyntax -> line = 0) /\
        ((Atoi lineStr).2 = Some ErrRange -> line = maxInt \/ line = minInt) /\
        (match lineStr with
         | [] => True
         | c :: s' =>
             match (if bool_decide (c = "+"%char) || bool_decide (c = "-"%char)
                    then s' else lineStr) with
             | [] => True
             | d :: _ => digitVal d = None
             end
         end -> line = 0)).
Proof.
  intros Htab.
  destruct (entry_tabbed pre fn next rest Htab) as (file & line & He & _ & _).
  destruct (newFrame_total file line fn) as (fr & Hfr & Hpath & Hline & _).
  exists file, line, fr. repeat split; try done.
  - pose proof (entry_tabbed_nocolon pre fn next rest Htab H) as He'.
    rewrite He in He'. now injection He'.
  - pose proof (entry_tabbed_nocolon pre fn next rest Htab H) as He'.
    rewrite He in He'. now injection He'.
  - pose proof (entry_tabbed_colon pre fn next rest f lineStr Htab H H0) as He'.
    rewrite He in He'. now injection He'.
  - pose proof (entry_tabbed_colon pre fn next rest f lineStr Htab H H0) as He'.
    rewrite He in He'. now injection He'.
  - pose proof (entry_tabbed_colon pre fn next rest f lineStr Htab H H0) as He'.
    rewrite He in He'. injection He' as _ ->.
    now apply (Atoi_spec lineStr).
  - pose proof (entry_tabbed_colon pre fn next rest f lineStr Htab H H0) as He'.
    rewrite He in He'. injection He' as _ ->.
    now apply (Atoi_spec lineStr).
  - intros Hnan.
    pose proof (entry_tabbed_colon pre fn next rest f lineStr Htab H H0) as He'.
    rewrite He in He'. injection He' as _ ->.
    now rewrite (Atoi_not_a_number lineStr Hnan).
Qed.

Lemma second_line_never_fails_witness :
  exists file line fr,
    parsePrintedStackEntry [lit "main.main"; tab :: lit "/a/main.go:12x"] 0
    = Returns (1, file, line, lit "main.main") /\
    newFrame file line (lit "main.main") = Returns fr /\
    AbsolutePath fr = file /\ Lineno fr = line /\
    ((":"%char ∉ TrimSpace (tab :: lit "/a/main.go:12x")) ->
     file = TrimSpace (tab :: lit "/a/main.go:12x") /\ line = 0) /\
    (forall f lineStr,
        TrimSpace (tab :: lit "/a/main.go:12x") = f ++ ":"%char :: lineStr ->
        (":"%char ∉ lineStr) ->
        file = f /\ line = (Atoi lineStr).1 /\
        ((Atoi lineStr).2 = Some ErrSyntax -> line = 0) /\
        ((Atoi lineStr).2 = Some ErrRange -> line = maxInt \/ line = minInt) /\
        (match lineStr with
         | [] => True
         | c :: s' =>
             match (if bool_decide (c = "+"%char) || bool_decide (c = "-"%char)
                    then s' else lineStr) with
             | [] => True
             | d :: _ => digitVal d = None
             end
         end -> line = 0)).
Proof.
  apply (second_line_never_fails [] (lit "main.main") (tab :: lit "/a/main.go:12x") []).
  reflexivity.
Defined.




(** C4. The trace has one frame per entry of the text (there is at least
    one), and its frame [i] is the frame of entry [n-1-i]: the entries come
    out in the exact reverse of their order in the text. *)
Theorem frames_in_reverse_entry_order (st : gostring) :
  exists tr,
    parsePrintedStack st = Returns (Some tr) /\
    (1 <= length (entries (Split (TrimSpace st) newline)))%nat /\
    length (Frames tr) = length (entries (Split (TrimSpace st) newline)) /\
    forall (i : nat) (e : entry),
      (i < length (entries (Split (TrimSpace st) newline)))%nat ->
      entries (Split (TrimSpace st) newline)
        !! (length (entries (Split (TrimSpace st) newline)) - 1 - i)%nat = Some e ->
      exists fr, Frames tr !! i = Some fr /\ frameOfEntry e = Returns fr.
Proof.
  set (es := entries (Split (TrimSpace st) newline)).
  destruct (parsePrintedStack_entries st) as (fs & Hne & Hfs & _ & Hp).
  fold es in Hfs.
  pose proof (Forall2_length _ _ _ Hfs) as Hlen.
  exists {| Frames := reverse fs |}. simpl Frames.
  split; [exact Hp|]. split.
  { destruct fs; [done|]. rewrite Hlen. simpl. lia. }
  split; [rewrite length_reverse; lia|].
  intros i e Hi He.
  destruct (Forall2_lookup_l _ _ _ _ _ Hfs He) as (fr & Hfr & Hframe).
  exists fr. split; [|exact Hframe].
  rewrite reverse_lookup by lia. rewrite <- Hfr. f_equal. lia.
Qed.

Lemma frames_in_reverse_entry_order_witness :
  exists tr,
    parsePrintedStack (lit "a.f" ++ [newline; tab] ++ lit "/x/a.go:1" ++ [newline]
                       ++ lit "unknown" ++ [newline] ++ lit "main.main")
    = Returns (Some tr) /\
    Frames tr !! 0%nat
    = Some {| AbsolutePath := []; Filename := []; Lineno := 0; InApp := false;
              Module_ := lit "main"; Function_ := lit "main" |} /\
    Frames tr !! 2%nat
    = Some {| AbsolutePath := lit "/x/a.go"; Filename := lit "/x/a.go"; Lineno := 1;
              InApp := false; Module_ := lit "a"; Function_ := lit "f" |}.
Proof.
  destruct (frames_in_reverse_entry_order
              (lit "a.f" ++ [newline; tab] ++ lit "/x/a.go:1" ++ [newline]
               ++ lit "unknown" ++ [newline] ++ lit "main.main"))
    as (tr & Hp & _ & _ & Hrev).
  exists tr. split; [exact Hp|]. split.
  - destruct (Hrev 0%nat (lit "main.main", None)) as (fr & -> & Hfr);
      [vm_compute; lia | reflexivity |].
    vm_compute in Hfr. now injection Hfr as <-.
  - destruct (Hrev 2%nat (lit "a.f", Some (tab :: lit "/x/a.go:1"))) as (fr & -> & Hfr);
      [vm_compute; lia | reflexivity |].
    vm_compute in Hfr. now injection Hfr as <-.
Defined.

(** The nil result of [parsePrintedStack] is never returned. *)
Lemma parsePrintedStack_never_nil (st : gostring) :
  parsePrintedStack st <> Returns None.
Proof.
  destruct (parsePrintedStack_entries st) as (fs & _ & _ & _ & Hp).
  rewrite Hp. discriminate.
Qed.

(** C1 fails on the code.  For the empty text, and for every text of ASCII
    white space only, [parsePrintedStack] returns no nil but a trace of
    one frame whose fields are all empty: [strings.Split] of the empty
    string is one empty line, which is read as an entry. *)
Theorem blank_text_gives_one_empty_frame (st : gostring) :
  forallb asciiSpace st = true ->
  parsePrintedStack st = Returns (Some {| Frames := [emptyFrame] |}).
Proof.
  intros Hblank. unfold parsePrintedStack, collectFrames.
  rewrite (TrimSpace_all_space st Hblank). reflexivity.
Qed.

Lemma blank_text_gives_one_empty_frame_witness :
  parsePrintedStack [] = Returns (Some {| Frames := [emptyFrame] |}) /\
  parsePrintedStack [" "%char; newline; tab; newline]
  = Returns (Some {| Frames := [emptyFrame] |}).
Proof.
  split.
  - apply (blank_text_gives_one_empty_frame []). reflexivity.
  - apply (blank_text_gives_one_empty_frame [" "%char; newline; tab; newline]). reflexivity.
Defined.

(** ** The resolver *)

Section ResolverSpec.

Variable Sprintf_plus_v : StackTrace -> gostring.
Variables pkgFundamental pkgWithStackName ourWithStackName : TypeKey.

Local Abbreviation resolve :=
  (GetReportableStackTrace Sprintf_plus_v pkgFundamental pkgWithStackName ourWithStackName).
Local Abbreviation isMarker :=
  (isOriginMarker pkgFundamental pkgWithStackName ourWithStackName).

(** C2. The resolver makes three checks in order, the first that matches
    deciding: a [StackTrace()] method sends the error to
    [convertPkgStack]; otherwise safe details with at least one string and
    a registered type key send the first detail string to
    [parsePrintedStack]; otherwise the result is nil.  It returns on every
    error value. *)
Theorem resolver_three_checks (err : error) :
  (forall st, StackTracer err = Some st ->
              resolve err = convertPkgStack Sprintf_plus_v st) /\
  (forall d0 ds,
      StackTracer err = None -> SafeDetailer err = Some (d0 :: ds) ->
      isMarker (GetTypeKey err) ->
      resolve err = parsePrintedStack d0) /\
  (StackTracer err = None ->
   SafeDetailer err = None \/ SafeDetailer err = Some [] \/
   ~ isMarker (GetTypeKey err) ->
   resolve err = Returns None) /\
  (exists r, resolve err = Returns r).
Proof.
  unfold GetReportableStackTrace, isOriginMarker.
  assert (Hkey : bool_decide (GetTypeKey err = pkgFundamental)
                 || bool_decide (GetTypeKey err = pkgWithStackName)
                 || bool_decide (GetTypeKey err = ourWithStackName) = true
                 <-> (GetTypeKey err = pkgFundamental \/ GetTypeKey err = pkgWithStackName
                      \/ GetTypeKey err = ourWithStackName)).
  { rewrite !orb_true_iff, !bool_decide_eq_true. tauto. }
  assert (Htotal : forall s, exists r, parsePrintedStack s = Returns r).
  { intros s. destruct (parsePrintedStack_entries s) as (fs & _ & _ & _ & H). eauto. }
  destruct (StackTracer err) as [st|].
  { repeat split; try discriminate.
    - now intros ? [= ->].
    - unfold convertPkgStack. destruct (len st =? 0); [now eexists | apply Htotal]. }
  destruct (SafeDetailer err) as [[|d0 ds]|].
  - repeat split; try discriminate; eauto.
  - replace (0 <? len (d0 :: ds)) with true
      by (symmetry; apply Z.ltb_lt; rewrite len_cons; pose proof (len_nonneg ds); lia).
    change (index (d0 :: ds) 0) with (Returns d0). rewrite bind_Returns.
    destruct (bool_decide (GetTypeKey err = pkgFundamental)
              || bool_decide (GetTypeKey err = pkgWithStackName)
              || bool_decide (GetTypeKey err = ourWithStackName)) eqn:E.
    + repeat split; try discriminate.
      * now intros ? ? _ [= -> ->] _.
      * intros _ [H|[H|H]]; try discriminate H. exfalso. apply H. now apply Hkey.
      * apply Htotal.
    + repeat split; try discriminate; eauto.
      intros ? ? _ _ H. apply Hkey in H. discriminate H.
  - repeat split; try discriminate; eauto.
Qed.

End ResolverSpec.

Lemma resolver_three_checks_witness :
  GetReportableStackTrace (fun _ => lit "unknown") (lit "k1") (lit "k2") (lit "k3")
    {| StackTracer := None;
       SafeDetailer := Some [lit "main.main"; lit "more"];
       GetTypeKey := lit "k2" |}
  = parsePrintedStack (lit "main.main").
Proof.
  apply (proj1 (proj2 (resolver_three_checks (fun _ => lit "unknown")
                         (lit "k1") (lit "k2") (lit "k3") _))
               (lit "main.main") [lit "more"]).
  - reflexivity.
  - reflexivity.
  - right. left. reflexivity.
Defined.

End Spec.

(** * Further behaviour of the package *)

(** ** Helper facts *)

Module MoreFacts.
Import GoStrings Strconv Grammar withstack.
Import GoStringsFacts SplitTrimFacts StrconvFacts NormalizerFacts EntryFacts LoopFacts ParserFacts.

Lemma elem_occurs (c : ascii) (s : gostring) : c ∈ s -> occurs [c] s.
Proof. intros H. apply list_elem_of_split in H as (l1 & l2 & ->). now exists l1, l2. Qed.

(** Nothing of a non-empty separator is left after its last cut. *)
Lemma lastCut_rest (sub s pre post : gostring) :
  sub <> [] -> lastCut sub s pre post -> ~ occurs sub post.
Proof.
  intros Hsub [Hs Hmax] (p1 & p2 & Hpost).
  assert (Hs' : s = (pre ++ sub ++ p1) ++ sub ++ p2).
  { rewrite Hs, Hpost, <- !app_assoc. reflexivity. }
  apply Hmax in Hs'. rewrite !length_app in Hs'.
  destruct sub; [done|]. simpl in Hs'. lia.
Qed.

(** An occurrence of the middle dot around a period lies on one side. *)
Lemma middleDot_around_period (a b : gostring) :
  occurs middleDot (a ++ lit "." ++ b) -> occurs middleDot a \/ occurs middleDot b.
Proof.
  intros (pre & post & H). unfold middleDot in H. change (lit ".") with ["."%char] in H.
  simpl in H. apply app_eq_inv in H as [(k & Ha & Hk)|(k & Hpre & Hk)].
  - destruct k as [|k0 [|k1 k]]; simpl in Hk.
    + discriminate Hk.
    + injection Hk as _ Hk. discriminate Hk.
    + injection Hk as <- <- Hk. left. rewrite Ha. now exists pre, k.
  - destruct k as [|k0 k]; simpl in Hk.
    + discriminate Hk.
    + injection Hk as _ Hk. right. rewrite Hk. now exists k, post.
Qed.

Lemma no_middleDot_in_join (segs : list gostring) :
  Forall (fun seg => ~ occurs middleDot seg) segs ->
  ~ occurs middleDot (join (lit ".") segs).
Proof.
  induction segs as [|seg segs IH]; intros Hall.
  - intros (pre & post & H). destruct pre; discriminate H.
  - apply Forall_cons in Hall as [Hseg Hall]. destruct segs as [|seg' segs]; [exact Hseg|].
    change (join (lit ".") (seg :: seg' :: segs))
      with (seg ++ lit "." ++ join (lit ".") (seg' :: segs)).
    intros [H|H]%middleDot_around_period; [now apply Hseg | now apply IH].
Qed.

Lemma join_length_period (segs : list gostring) :
  (length (join (lit ".") segs) <= length (join middleDot segs))%nat.
Proof.
  induction segs as [|seg segs IH]; [done|]. destruct segs as [|seg' segs]; [done|].
  change (join (lit ".") (seg :: seg' :: segs))
    with (seg ++ lit "." ++ join (lit ".") (seg' :: segs)).
  change (join middleDot (seg :: seg' :: segs))
    with (seg ++ middleDot ++ join middleDot (seg' :: segs)).
  set (J1 := join (lit ".") (seg' :: segs)) in *.
  set (J2 := join middleDot (seg' :: segs)) in *.
  rewrite !length_app. change (length (lit ".")) with 1%nat.
  change (length middleDot) with 2%nat. lia.
Qed.

(** What replacing the middle dots of any name gives. *)
Lemma Replace_middleDot (s : gostring) :
  ~ occurs middleDot (Replace s middleDot (lit ".")) /\
  (length (Replace s middleDot (lit ".")) <= length s)%nat.
Proof.
  destruct (segments_exist s) as (segs & _ & Hs & Hall).
  rewrite Hs at 1 2. rewrite (Replace_join segs Hall). split.
  - now apply no_middleDot_in_join.
  - rewrite Hs. apply join_length_period.
Qed.

(** The fields of a composed frame. *)
Lemma newFrame_fields (file : gostring) (line : Z) (fnName : gostring) (fr : frame) :
  newFrame file line fnName = Returns fr ->
  AbsolutePath fr = file /\ Lineno fr = line /\ InApp fr = false /\
  trimPath file = Returns (Filename fr) /\
  (fnName = unknown -> Module_ fr = unknown /\ Function_ fr = unknown) /\
  (fnName <> unknown -> functionName fnName = Returns (Module_ fr, Function_ fr)).
Proof.
  unfold newFrame.
  destruct (trimPath_total file) as (filename & Htrim & _). rewrite Htrim, bind_Returns.
  cbv zeta. case_bool_decide as Hu; simpl negb; cbv iota.
  - intros [= <-]. simpl. repeat split; try done.
  - destruct (functionName_total fnName) as (pack & name & Hfn). rewrite Hfn, bind_Returns.
    intros [= <-]. simpl. repeat split; try done.
Qed.

(** The frame of an entry is composed from the first line of the entry. *)
Lemma frameOfEntry_newFrame (e : entry) (fr : frame) :
  frameOfEntry e = Returns fr ->
  exists file line, newFrame file line e.1 = Returns fr.
Proof.
  destruct e as [fn [next|]]; unfold frameOfEntry; simpl entryLines; simpl fst.
  - destruct (HasPrefix next [tab]) eqn:Htab.
    + destruct (entry_tabbed [] fn next [] Htab) as (file & line & _ & He & _).
      rewrite He, bind_Returns. eauto.
    + pose proof (entry_untabbed [] fn [next] Htab) as He.
      change (parsePrintedStackEntry [fn; next] 0 = Returns (0, [], 0, fn)) in He.
      rewrite He, bind_Returns. eauto.
  - rewrite entry_single, bind_Returns. eauto.
Qed.

Lemma entries_length_bounds (lines : list gostring) :
  (length (entries lines) <= length lines <= 2 * length (entries lines))%nat.
Proof.
  remember (length lines) as n eqn:Hn. revert lines Hn.
  induction n as [n IH] using lt_wf_ind. intros lines Hn.
  destruct lines as [|l0 [|l1 rest]]; [simpl in *; lia | simpl in *; lia |].
  destruct (HasPrefix l1 [tab]) eqn:Htab.
  - rewrite (entries_cons_tabbed l0 l1 rest Htab).
    pose proof (IH (length rest) ltac:(subst n; simpl; lia) rest eq_refl).
    simpl in *. lia.
  - rewrite (entries_cons_untabbed l0 l1 rest Htab).
    pose proof (IH (length (l1 :: rest)) ltac:(subst n; simpl; lia) (l1 :: rest) eq_refl).
    simpl in *. lia.
Qed.

Lemma entries_untabbed_lines (lines : list gostring) :
  Forall (fun l => HasPrefix l [tab] = false) lines ->
  entries lines = map (fun l => (l, None)) lines.
Proof.
  induction lines as [|l0 lines IH]; intros Hall; [done|].
  apply Forall_cons in Hall as [_ Hall]. destruct lines as [|l1 lines]; [done|].
  pose proof Hall as Hall'. apply Forall_cons in Hall' as [Htab _].
  rewrite (entries_cons_untabbed l0 l1 lines Htab). now rewrite IH.
Qed.

(** Leading ASCII white space is trimmed away. *)
Lemma TrimLeftSpace_leading (ws s : gostring) :
  forallb asciiSpace ws = true -> TrimLeftSpace (ws ++ s) = TrimLeftSpace s.
Proof.
  unfold TrimLeftSpace. induction ws as [|c ws IH]; [done|].
  simpl forallb. rewrite andb_true_iff. intros [Hc Hws].
  change (trimLeading spaces 0 ((c :: ws) ++ s))
    with (match leadingWidth spaces (c :: ws ++ s) with
          | O => c :: ws ++ s
          | S w => trimLeading spaces w (ws ++ s)
          end).
  rewrite (leadingWidth_asciiSpace c (ws ++ s) Hc). auto.
Qed.

End MoreFacts.

(** ** Printed stacks: digits, trimming, splitting *)

Module PrintedFacts.
Import GoStrings Strconv Grammar withstack Printed.
Import GoStringsFacts SplitTrimFacts StrconvFacts NormalizerFacts EntryFacts LoopFacts ParserFacts.
Import MoreFacts.

Lemma digit_char (d : Z) :
  0 <= d <= 9 ->
  digitVal (bytechar (48 + d)) = Some d /\
  plain (bytechar (48 + d)) = true /\
  bytechar (48 + d) <> "-"%char /\
  bytechar (48 + d) <> "+"%char /\
  bytechar (48 + d) <> ":"%char /\
  bytechar (48 + d) <> newline.
Proof.
  intros H.
  assert (Hd : d = 0 \/ d = 1 \/ d = 2 \/ d = 3 \/ d = 4 \/ d = 5 \/ d = 6 \/ d = 7
               \/ d = 8 \/ d = 9) by lia.
  repeat (destruct Hd as [->|Hd]); try subst d;
    (repeat split; try reflexivity;
     intros E; vm_compute in E; discriminate E).
Qed.

Lemma atoiDigits_snoc (s : gostring) (c : ascii) (a : Z) :
  atoiDigits (s ++ [c]) a
  = match atoiDigits s a with
    | Some v => match digitVal c with
                | Some d => Some (v * 10 + d)
                | None => None
                end
    | None => None
    end.
Proof.
  revert a. induction s as [|x s IH]; intros a; simpl.
  - now destruct (digitVal c).
  - destruct (digitVal x); [apply IH | reflexivity].
Qed.

Lemma parseUintLoop_snoc (s : gostring) (c : ascii) (a v d : Z) :
  parseUintLoop s a = (v, None) ->
  digitVal c = Some d ->
  v < maxUint64 / 10 + 1 -> v * 10 + d <= maxUint64 ->
  parseUintLoop (s ++ [c]) a = (v * 10 + d, None).
Proof.
  revert a. induction s as [|x s IH]; intros a Hs Hc Hv Hmax; simpl in *.
  - injection Hs as ->. rewrite Hc.
    replace (maxUint64 / 10 + 1 <=? v) with false by (symmetry; apply Z.leb_gt; lia).
    replace (maxUint64 <? v * 10 + d) with false by (symmetry; apply Z.ltb_ge; lia).
    reflexivity.
  - destruct (digitVal x) as [dx|]; [|discriminate Hs].
    destruct (maxUint64 / 10 + 1 <=? a); [discriminate Hs|].
    destruct (maxUint64 <? a * 10 + dx); [discriminate Hs|].
    now apply IH.
Qed.

(** The digits that [itoaDigits] writes, read back. *)
Lemma itoaDigits_spec (fuel : nat) :
  forall n : Z,
    0 <= n < 10 ^ Z.of_nat (S fuel) ->
    (1 <= length (itoaDigits (S fuel) n) <= S fuel)%nat /\
    Forall (fun c => exists d, 0 <= d <= 9 /\ c = bytechar (48 + d)) (itoaDigits (S fuel) n) /\
    atoiDigits (itoaDigits (S fuel) n) 0 = Some n /\
    (n <= maxInt -> parseUintLoop (itoaDigits (S fuel) n) 0 = (n, None)).
Proof.
  induction fuel as [|fuel IH]; intros n Hn.
  - change (10 ^ Z.of_nat 1) with 10 in Hn. simpl.
    replace (n <? 10) with true by (symmetry; apply Z.ltb_lt; lia).
    destruct (digit_char n ltac:(lia)) as (Hd & _).
    repeat split; simpl; try lia.
    + constructor; [|constructor]. exists n. split; [lia | reflexivity].
    + now rewrite Hd.
    + intros _. rewrite Hd.
      replace (maxUint64 / 10 + 1 <=? 0) with false by reflexivity.
      replace (maxUint64 <? 0 * 10 + n) with false
        by (symmetry; apply Z.ltb_ge; rewrite maxUint64_val; lia).
      reflexivity.
  - change (itoaDigits (S (S fuel)) n)
      with (if n <? 10 then [bytechar (48 + n)]
            else itoaDigits (S fuel) (n / 10) ++ [bytechar (48 + n mod 10)]).
    destruct (n <? 10) eqn:E.
    + apply Z.ltb_lt in E. destruct (digit_char n ltac:(lia)) as (Hd & _).
      repeat split; simpl; try lia.
      * constructor; [|constructor]. exists n. split; [lia | reflexivity].
      * now rewrite Hd.
      * intros _. rewrite Hd.
        replace (maxUint64 / 10 + 1 <=? 0) with false by reflexivity.
        replace (maxUint64 <? 0 * 10 + n) with false
          by (symmetry; apply Z.ltb_ge; rewrite maxUint64_val; lia).
        reflexivity.
    + apply Z.ltb_ge in E.
      assert (Hq : 0 <= n / 10 < 10 ^ Z.of_nat (S fuel)).
      { split; [apply Z.div_pos; lia|].
        apply Z.div_lt_upper_bound; [lia|].
        replace (Z.of_nat (S (S fuel))) with (Z.of_nat (S fuel) + 1) in Hn by lia.
        rewrite Z.pow_add_r in Hn by lia. lia. }
      destruct (IH (n / 10) Hq) as (Hlen & Hall & Hatoi & Huint).
      pose proof (Z.mod_pos_bound n 10 ltac:(lia)) as Hm.
      destruct (digit_char (n mod 10) ltac:(lia)) as (Hd & _).
      pose proof (Z.div_mod n 10 ltac:(lia)) as Hdm.
      repeat split.
      * rewrite length_app. change (length [bytechar (48 + n mod 10)]) with 1%nat. lia.
      * rewrite length_app. change (length [bytechar (48 + n mod 10)]) with 1%nat. lia.
      * apply Forall_app. split; [exact Hall|].
        constructor; [|constructor]. exists (n mod 10). split; [lia | reflexivity].
      * rewrite atoiDigits_snoc, Hatoi, Hd. f_equal. lia.
      * intros Hmax. rewrite maxInt_val in Hmax.
        rewrite (parseUintLoop_snoc _ _ 0 (n / 10) (n mod 10)).
        -- f_equal. lia.
        -- apply Huint. rewrite maxInt_val. lia.
        -- exact Hd.
        -- rewrite maxUint64_val. change (18446744073709551615 / 10 + 1)
             with 1844674407370955162. lia.
        -- rewrite maxUint64_val. lia.
Qed.

(** [Atoi] reads back what [Itoa] writes. *)
Lemma Atoi_Itoa (n : Z) : 0 <= n <= maxInt -> Atoi (Itoa n) = (n, None).
Proof.
  intros Hn. unfold Itoa.
  assert (Hlt : 0 <= n < 10 ^ Z.of_nat 19).
  { rewrite maxInt_val in Hn. change (10 ^ Z.of_nat 19) with 10000000000000000000. lia. }
  destruct (itoaDigits_spec 18 n Hlt) as (Hlen & Hall & Hatoi & Huint).
  destruct (itoaDigits 19 n) as [|c s] eqn:Es; [simpl in Hlen; lia|].
  apply Forall_cons in Hall as [(d & Hd & ->) _].
  destruct (digit_char d Hd) as (_ & _ & Hminus & Hplus & _).
  unfold Atoi. cbv zeta.
  destruct ((0 <? len (bytechar (48 + d) :: s)) && (len (bytechar (48 + d) :: s) <? 19)).
  - rewrite !bool_decide_eq_false_2 by done. simpl orb. rewrite andb_false_l.
    now rewrite Hatoi.
  - unfold ParseInt. rewrite !bool_decide_eq_false_2 by done. simpl orb. cbv zeta.
    unfold ParseUint. rewrite (Huint (proj2 Hn)).
    rewrite maxInt_val in Hn. change (2 ^ 63) with 9223372036854775808.
    replace (9223372036854775808 <=? n) with false by (symmetry; apply Z.leb_gt; lia).
    reflexivity.
Qed.

Lemma Itoa_digits (n : Z) :
  0 <= n <= maxInt ->
  exists s c, Itoa n = s ++ [c] /\ plain c = true /\
              (":"%char ∉ Itoa n) /\ (newline ∉ Itoa n).
Proof.
  intros Hn. unfold Itoa.
  assert (Hlt : 0 <= n < 10 ^ Z.of_nat 19).
  { rewrite maxInt_val in Hn. change (10 ^ Z.of_nat 19) with 10000000000000000000. lia. }
  destruct (itoaDigits_spec 18 n Hlt) as (Hlen & Hall & _).
  assert (Hno : forall x : ascii, x = ":"%char \/ x = newline -> x ∉ itoaDigits 19 n).
  { intros x Hx Hin. rewrite Forall_forall in Hall.
    destruct (Hall x Hin) as (d & Hd & ->).
    destruct (digit_char d Hd) as (_ & _ & _ & _ & Hcolon & Hnl). now destruct Hx. }
  destruct (itoaDigits 19 n) as [|c0 s0 _] eqn:Es using rev_ind; [simpl in Hlen; lia|].
  exists s0, c0. split; [reflexivity|]. split; [|split; apply Hno; auto].
  apply Forall_app in Hall as [_ Hc]. apply Forall_cons in Hc as [(d & Hd & ->) _].
  now destruct (digit_char d Hd) as (_ & Hp & _).
Qed.

(** *** Trimming a text that starts and ends with plain bytes *)

Lemma spaces_headsNotPlain : headsNotPlain spaces.
Proof. unfold headsNotPlain. vm_compute. repeat constructor. Qed.

Lemma reversed_spaces_headsNotPlain : headsNotPlain (map reverse spaces).
Proof. unfold headsNotPlain. vm_compute. repeat constructor. Qed.

Lemma leadingWidth_plain (table : list gostring) (c : ascii) (s : gostring) :
  headsNotPlain table -> plain c = true -> leadingWidth table (c :: s) = 0%nat.
Proof.
  intros Htable Hc. unfold leadingWidth.
  replace (find (HasPrefix (c :: s)) table) with (@None gostring); [done|].
  symmetry. induction Htable as [|enc table Henc _ IH]; [done|]. simpl.
  destruct (HasPrefix (c :: s) enc) eqn:E; [|exact IH].
  apply HasPrefix_true in E as [r E]. destruct enc as [|e enc]; [done|].
  injection E as -> _. congruence.
Qed.

Lemma TrimLeftSpace_plain (s : gostring) : plainStart s = true -> TrimLeftSpace s = s.
Proof.
  destruct s as [|c s]; [discriminate|]. simpl plainStart. intros Hc.
  unfold TrimLeftSpace.
  change (trimLeading spaces 0 (c :: s))
    with (match leadingWidth spaces (c :: s) with
          | O => c :: s
          | S w => trimLeading spaces w s
          end).
  now rewrite (leadingWidth_plain spaces c s spaces_headsNotPlain Hc).
Qed.

Lemma TrimRightSpace_plain (s : gostring) (c : ascii) :
  plain c = true -> TrimRightSpace (s ++ [c]) = s ++ [c].
Proof.
  intros Hc. unfold TrimRightSpace. rewrite reverse_snoc.
  change (trimLeading (map reverse spaces) 0 (c :: reverse s))
    with (match leadingWidth (map reverse spaces) (c :: reverse s) with
          | O => c :: reverse s
          | S w => trimLeading (map reverse spaces) w (reverse s)
          end).
  rewrite (leadingWidth_plain _ c _ reversed_spaces_headsNotPlain Hc).
  now rewrite reverse_cons, reverse_involutive.
Qed.

Lemma TrimSpace_plain (s : gostring) :
  plainStart s = true -> endsPlain s -> TrimSpace s = s.
Proof.
  intros Hstart (s' & c & Hs & Hc). unfold TrimSpace.
  rewrite (TrimLeftSpace_plain s Hstart). rewrite Hs. now apply TrimRightSpace_plain.
Qed.

Lemma TrimSpace_after_space (c : ascii) (s : gostring) :
  asciiSpace c = true -> TrimSpace (c :: s) = TrimSpace s.
Proof.
  intros Hc. unfold TrimSpace.
  change (c :: s) with ([c] ++ s).
  rewrite (TrimLeftSpace_leading [c] s); [done|]. simpl. now rewrite Hc.
Qed.

(** *** Splitting a join *)

Lemma Split_no_sep (s : gostring) (sep : ascii) : sep ∉ s -> Split s sep = [s].
Proof.
  induction s as [|c s IH]; intros Hno; [done|]. simpl.
  rewrite bool_decide_eq_false_2.
  - rewrite IH; [done|]. intros H. apply Hno. apply elem_of_cons. now right.
  - intros ->. apply Hno. apply elem_of_cons. now left.
Qed.

Lemma Split_app_sep (a b : gostring) (sep : ascii) :
  sep ∉ a -> Split (a ++ sep :: b) sep = a :: Split b sep.
Proof.
  induction a as [|c a IH]; intros Hno; simpl.
  - now rewrite bool_decide_eq_true_2.
  - rewrite bool_decide_eq_false_2.
    + rewrite IH; [done|]. intros H. apply Hno. apply elem_of_cons. now right.
    + intros ->. apply Hno. apply elem_of_cons. now left.
Qed.

Lemma Split_join (lines : list gostring) (sep : ascii) :
  lines <> [] -> Forall (fun l => sep ∉ l) lines ->
  Split (join [sep] lines) sep = lines.
Proof.
  induction lines as [|l lines IH]; intros Hne Hall; [done|].
  apply Forall_cons in Hall as [Hl Hall]. destruct lines as [|l' lines].
  - simpl. now apply Split_no_sep.
  - change (join [sep] (l :: l' :: lines)) with (l ++ sep :: join [sep] (l' :: lines)).
    rewrite (Split_app_sep _ _ _ Hl). f_equal. now apply IH.
Qed.

Lemma join_app (sep : gostring) (l1 l2 : list gostring) :
  l1 <> [] -> l2 <> [] -> join sep (l1 ++ l2) = join sep l1 ++ sep ++ join sep l2.
Proof.
  induction l1 as [|a l1 IH]; intros H1 H2; [done|]. destruct l1 as [|b l1].
  - destruct l2; [done|]. reflexivity.
  - change (join sep ((a :: b :: l1) ++ l2)) with (a ++ sep ++ join sep ((b :: l1) ++ l2)).
    rewrite IH by done.
    change (join sep (a :: b :: l1)) with (a ++ sep ++ join sep (b :: l1)).
    now rewrite <- !app_assoc.
Qed.

(** *** The lines of a printed stack *)

Lemma stackLines_cons (s : site) (sites : list site) :
  stackLines (s :: sites) = siteLines s ++ stackLines sites.
Proof. reflexivity. Qed.

Lemma siteLines_nonempty (s : site) : siteLines s <> [].
Proof. now destruct s. Qed.

Lemma stackLines_nonempty (sites : list site) : sites <> [] -> stackLines sites <> [].
Proof.
  destruct sites as [|s sites]; [done|]. intros _. rewrite stackLines_cons.
  destruct s; discriminate.
Qed.

Lemma printStack_lines (sites : list site) :
  sites <> [] -> printStack sites = newline :: join [newline] (stackLines sites).
Proof.
  induction sites as [|s sites IH]; intros Hne; [done|].
  change (printStack (s :: sites)) with ((newline :: printSite s) ++ printStack sites).
  rewrite stackLines_cons. destruct sites as [|s' sites].
  - change (printStack []) with (@nil ascii). change (stackLines []) with (@nil gostring).
    now rewrite !app_nil_r.
  - rewrite IH by done.
    rewrite (join_app [newline] (siteLines s) (stackLines (s' :: sites)))
      by (try apply siteLines_nonempty; now apply stackLines_nonempty).
    reflexivity.
Qed.

Lemma stackLines_head (sites : list site) :
  sites <> [] -> Forall wellFormed sites ->
  exists l ls, stackLines sites = l :: ls /\ plainStart l = true.
Proof.
  destruct sites as [|s sites]; [done|]. intros _ Hwf.
  apply Forall_cons in Hwf as [Hs _]. rewrite stackLines_cons.
  destruct s as [|fn file line].
  - eexists _, _. split; reflexivity.
  - destruct Hs as (Hfn & _). eexists _, _. split; [reflexivity | exact Hfn].
Qed.

Lemma tabline_endsPlain (file : gostring) (line : Z) (pre : gostring) :
  0 <= line <= maxInt -> endsPlain (pre ++ file ++ ":"%char :: Itoa line).
Proof.
  intros Hline. destruct (Itoa_digits line Hline) as (s0 & c & -> & Hc & _).
  exists (pre ++ file ++ ":"%char :: s0), c. split; [|exact Hc].
  rewrite <- !app_assoc. reflexivity.
Qed.

Lemma siteLines_last (s : site) :
  wellFormed s -> exists ls l, siteLines s = ls ++ [l] /\ endsPlain l.
Proof.
  destruct s as [|fn file line]; intros Hwf.
  - exists [], unknown. split; [reflexivity|]. exists (lit "unknow"), "n"%char. split; reflexivity.
  - destruct Hwf as (_ & _ & _ & _ & Hline).
    exists [fn], (tab :: file ++ ":"%char :: Itoa line). split; [reflexivity|].
    exact (tabline_endsPlain file line [tab] Hline).
Qed.

Lemma stackLines_last (sites : list site) :
  sites <> [] -> Forall wellFormed sites ->
  exists ls l, stackLines sites = ls ++ [l] /\ endsPlain l.
Proof.
  induction sites as [|s sites IH]; intros Hne Hwf; [done|].
  apply Forall_cons in Hwf as [Hs Hwf]. rewrite stackLines_cons.
  destruct sites as [|s' sites].
  - change (stackLines []) with (@nil gostring). rewrite app_nil_r.
    now apply siteLines_last.
  - destruct (IH ltac:(done) Hwf) as (ls & l & -> & Hl).
    exists (siteLines s ++ ls), l. split; [now rewrite app_assoc | exact Hl].
Qed.

Lemma join_plainStart (sep l : gostring) (ls : list gostring) :
  plainStart l = true -> plainStart (join sep (l :: ls)) = true.
Proof. destruct l as [|c l]; [discriminate|]. now destruct ls. Qed.

Lemma join_endsPlain (sep : gostring) (ls : list gostring) (l : gostring) :
  endsPlain l -> endsPlain (join sep (ls ++ [l])).
Proof.
  intros Hl. induction ls as [|a ls IH]; [exact Hl|].
  change ((a :: ls) ++ [l]) with ([a] ++ (ls ++ [l])).
  rewrite join_app; [|done|now destruct ls].
  destruct IH as (s' & c & -> & Hc).
  exists (join sep [a] ++ sep ++ s'), c. split; [|exact Hc].
  now rewrite <- !app_assoc.
Qed.

Lemma stackLines_no_newline (sites : list site) :
  Forall wellFormed sites -> Forall (fun l => newline ∉ l) (stackLines sites).
Proof.
  induction sites as [|s sites IH]; intros Hwf; [constructor|].
  apply Forall_cons in Hwf as [Hs Hwf]. rewrite stackLines_cons.
  apply Forall_app. split; [|now apply IH].
  destruct s as [|fn file line].
  - constructor; [|constructor]. apply (bool_decide_unpack _). vm_compute. exact I.
  - destruct Hs as (_ & Hfn & Hfile & _ & Hline).
    destruct (Itoa_digits line Hline) as (_ & _ & _ & _ & _ & Hnl).
    constructor; [exact Hfn|]. constructor; [|constructor].
    intros [E|Hin]%elem_of_cons; [vm_compute in E; discriminate E|].
    apply elem_of_app in Hin as [Hin|Hin]; [now apply Hfile|].
    apply elem_of_cons in Hin as [E|Hin]; [vm_compute in E; discriminate E|].
    now apply Hnl.
Qed.

(** The lines that the parser splits a printed stack into. *)
Lemma printStack_split (sites : list site) :
  sites <> [] -> Forall wellFormed sites ->
  Split (TrimSpace (printStack sites)) newline = stackLines sites.
Proof.
  intros Hne Hwf. rewrite (printStack_lines sites Hne).
  rewrite TrimSpace_after_space by reflexivity.
  destruct (stackLines_head sites Hne Hwf) as (l & ls & Hhead & Hstart).
  destruct (stackLines_last sites Hne Hwf) as (ls' & l' & Hlast & Hend).
  rewrite TrimSpace_plain.
  - apply Split_join; [now apply stackLines_nonempty | now apply stackLines_no_newline].
  - rewrite Hhead. now apply join_plainStart.
  - rewrite Hlast. now apply join_endsPlain.
Qed.

Lemma plainStart_not_tabbed (l : gostring) :
  plainStart l = true -> HasPrefix l [tab] = false.
Proof.
  destruct l as [|c l]; [discriminate|]. simpl plainStart. intros Hc.
  rewrite HasPrefix_cons1. apply bool_decide_eq_false_2. intros ->. discriminate Hc.
Qed.

Lemma entries_stackLines (sites : list site) :
  Forall wellFormed sites -> entries (stackLines sites) = map siteEntry sites.
Proof.
  induction sites as [|s sites IH]; intros Hwf; [done|].
  pose proof Hwf as Hwf0. apply Forall_cons in Hwf as [Hs Hwf].
  rewrite stackLines_cons. simpl map. rewrite <- (IH Hwf).
  destruct s as [|fn file line]; simpl siteLines; simpl siteEntry.
  - destruct sites as [|s' sites]; [reflexivity|].
    destruct (stackLines_head (s' :: sites) ltac:(done) Hwf) as (l & ls & -> & Hl).
    simpl app. apply entries_cons_untabbed. now apply plainStart_not_tabbed.
  - simpl app. apply entries_cons_tabbed. rewrite HasPrefix_cons1.
    now apply bool_decide_eq_true_2.
Qed.

(** The frame that the parser composes for a printed call site. *)
Lemma frameOfEntry_site (s : site) (fr : frame) :
  wellFormed s -> frameOfEntry (siteEntry s) = Returns fr -> siteFrame s fr.
Proof.
  destruct s as [|fn file line]; intros Hwf Hfr.
  - change (frameOfEntry (siteEntry Unknown)) with (Returns unknownFrame) in Hfr.
    now injection Hfr as <-.
  - destruct Hwf as (_ & _ & _ & Hfile & Hline).
    set (next := tab :: file ++ ":"%char :: Itoa line) in *.
    assert (Htab : HasPrefix next [tab] = true).
    { unfold next. rewrite HasPrefix_cons1. now apply bool_decide_eq_true_2. }
    assert (Htrim : TrimSpace next = file ++ ":"%char :: Itoa line).
    { unfold next. rewrite TrimSpace_after_space by reflexivity.
      apply TrimSpace_plain.
      - destruct Hfile as [->|Hfile]; [reflexivity|].
        destruct file as [|c file]; [discriminate Hfile | exact Hfile].
      - exact (tabline_endsPlain file line [] Hline). }
    destruct (Itoa_digits line Hline) as (_ & _ & _ & _ & Hcolon & _).
    pose proof (entry_tabbed_colon [] fn next [] file (Itoa line) Htab Htrim Hcolon) as He.
    change (parsePrintedStackEntry [fn; next] 0
            = Returns (1, file, (Atoi (Itoa line)).1, fn)) in He.
    unfold frameOfEntry in Hfr. simpl siteEntry in Hfr. fold next in Hfr.
    simpl entryLines in Hfr. rewrite He, bind_Returns, (Atoi_Itoa line Hline) in Hfr.
    simpl fst in Hfr. apply newFrame_fields in Hfr. exact Hfr.
Qed.

Lemma frames_of_sites (sites : list site) (fs : list frame) :
  Forall wellFormed sites ->
  Forall2 (fun e fr => frameOfEntry e = Returns fr) (map siteEntry sites) fs ->
  Forall2 siteFrame sites fs.
Proof.
  revert fs. induction sites as [|s sites IH]; intros fs Hwf Hfs.
  - apply Forall2_nil_inv_l in Hfs as ->. constructor.
  - apply Forall_cons in Hwf as [Hs Hwf]. simpl map in Hfs.
    apply Forall2_cons_inv_l in Hfs as (fr & fs' & Hfr & Hfs' & ->).
    constructor; [now apply frameOfEntry_site | now apply IH].
Qed.

(** *** White space after the text *)

Lemma leadingWidth_asciiSpace_reversed (c : ascii) (s : gostring) :
  asciiSpace c = true -> leadingWidth (map reverse spaces) (c :: s) = 1%nat.
Proof.
  intros H. apply asciiSpace_cases in H.
  unfold leadingWidth, spaces, spaceEncodings.
  repeat (apply elem_of_cons in H as [->|H]);
    [simpl map at 1; simpl find; rewrite ?HasPrefix_cons1; reflexivity ..|].
  now apply elem_of_nil in H.
Qed.

Lemma TrimRightSpace_trailing (s : gostring) (c : ascii) :
  asciiSpace c = true -> TrimRightSpace (s ++ [c]) = TrimRightSpace s.
Proof.
  intros Hc. unfold TrimRightSpace. rewrite reverse_snoc.
  change (trimLeading (map reverse spaces) 0 (c :: reverse s))
    with (match leadingWidth (map reverse spaces) (c :: reverse s) with
          | O => c :: reverse s
          | S w => trimLeading (map reverse spaces) w (reverse s)
          end).
  now rewrite (leadingWidth_asciiSpace_reversed c (reverse s) Hc).
Qed.

Lemma spaces_tails : tailsNotSpace spaces.
Proof. unfold tailsNotSpace. vm_compute. repeat constructor. Qed.

(** A white-space byte appended to a non-empty text completes no encoding
    of the table. *)
Lemma HasPrefix_snoc_space (p enc : gostring) (c : ascii) :
  p <> [] -> asciiSpace c = true ->
  match reverse enc with
  | e :: _ :: _ => asciiSpace e = false
  | _ => True
  end ->
  HasPrefix (p ++ [c]) enc = HasPrefix p enc.
Proof.
  intros Hp Hc Henc.
  destruct (HasPrefix p enc) eqn:E1.
  - apply HasPrefix_true in E1 as [r ->]. apply HasPrefix_true.
    exists (r ++ [c]). now rewrite app_assoc.
  - destruct (HasPrefix (p ++ [c]) enc) eqn:E2; [|done]. exfalso.
    apply HasPrefix_true in E2 as [r E2].
    destruct r as [|r0 r _] using rev_ind.
    + rewrite app_nil_r in E2. subst enc. rewrite reverse_snoc in Henc.
      destruct (reverse p) as [|q qs] eqn:Ep.
      * apply (f_equal reverse) in Ep. rewrite reverse_involutive in Ep. now subst p.
      * congruence.
    + rewrite app_assoc in E2. apply app_inj_tail in E2 as [-> _].
      assert (HasPrefix (enc ++ r) enc = true) by (apply HasPrefix_true; now exists r).
      congruence.
Qed.

Lemma leadingWidth_snoc_space (p : gostring) (c : ascii) :
  p <> [] -> asciiSpace c = true ->
  leadingWidth spaces (p ++ [c]) = leadingWidth spaces p.
Proof.
  intros Hp Hc. unfold leadingWidth.
  replace (find (HasPrefix (p ++ [c])) spaces) with (find (HasPrefix p) spaces); [done|].
  pose proof spaces_tails as Htails. unfold tailsNotSpace in Htails.
  induction Htails as [|enc table Henc _ IH]; [done|]. simpl.
  rewrite (HasPrefix_snoc_space p enc c Hp Hc Henc). now rewrite IH.
Qed.

Lemma trimLeading_snoc_space (s : gostring) (c : ascii) :
  asciiSpace c = true ->
  forall k : nat,
    trimLeading spaces k (s ++ [c]) = trimLeading spaces k s ++ [c] \/
    (trimLeading spaces k s = [] /\ trimLeading spaces k (s ++ [c]) = []).
Proof.
  intros Hc. induction s as [|x s IH]; intros k.
  - right. split; [now destruct k|]. destruct k as [|k]; [|reflexivity].
    change (trimLeading spaces 0 ([] ++ [c]))
      with (match leadingWidth spaces [c] with
            | O => [c]
            | S w => trimLeading spaces w []
            end).
    now rewrite (leadingWidth_asciiSpace c [] Hc).
  - destruct k as [|k]; [|apply (IH k)].
    change (trimLeading spaces 0 ((x :: s) ++ [c]))
      with (match leadingWidth spaces ((x :: s) ++ [c]) with
            | O => (x :: s) ++ [c]
            | S w => trimLeading spaces w (s ++ [c])
            end).
    change (trimLeading spaces 0 (x :: s))
      with (match leadingWidth spaces (x :: s) with
            | O => x :: s
            | S w => trimLeading spaces w s
            end).
    rewrite (leadingWidth_snoc_space (x :: s) c ltac:(done) Hc).
    destruct (leadingWidth spaces (x :: s)) as [|w]; [now left | apply (IH w)].
Qed.

Lemma TrimSpace_snoc_space (s : gostring) (c : ascii) :
  asciiSpace c = true -> TrimSpace (s ++ [c]) = TrimSpace s.
Proof.
  intros Hc. unfold TrimSpace, TrimLeftSpace.
  destruct (trimLeading_snoc_space s c Hc 0) as [->|[-> ->]]; [|done].
  now apply TrimRightSpace_trailing.
Qed.

(** White space around a text is trimmed away. *)
Lemma TrimSpace_surrounding (before st after : gostring) :
  forallb asciiSpace before = true -> forallb asciiSpace after = true ->
  TrimSpace (before ++ st ++ after) = TrimSpace st.
Proof.
  intros Hb Ha. transitivity (TrimSpace (st ++ after)).
  { unfold TrimSpace. now rewrite (TrimLeftSpace_leading before (st ++ after) Hb). }
  clear Hb. induction after as [|c after IH] using rev_ind; [now rewrite app_nil_r|].
  rewrite forallb_app in Ha. apply andb_true_iff in Ha as [Ha Hc].
  simpl in Hc. rewrite andb_true_r in Hc.
  rewrite app_assoc, (TrimSpace_snoc_space _ c Hc). now apply IH.
Qed.

End PrintedFacts.

(** ** Properties *)

Module Behaviour.
Import GoStrings Strconv Grammar withstack.
Import GoStringsFacts SplitTrimFacts StrconvFacts NormalizerFacts EntryFacts LoopFacts ParserFacts.
Import MoreFacts Printed PrintedFacts.

(** X1. [trimPath] leaves no [/src/] in its result, so trimming again changes
    nothing; the result is a suffix of the path. *)
Theorem trimPath_idempotent (filename : gostring) :
  exists r,
    trimPath filename = Returns r /\
    r `suffix_of` filename /\
    ~ occurs (lit "/src/") r /\
    trimPath r = Returns r.
Proof.
  destruct (LastIndex_cases filename (lit "/src/")) as [[_ Hno]|(pre & post & Hcut & _)].
  - exists filename. split; [now apply trimPath_no_marker|].
    split; [done|]. split; [exact Hno | now apply trimPath_no_marker].
  - exists post. split; [exact (trimPath_lastCut _ _ _ Hcut)|].
    assert (Hsrc : lit "/src/" <> []) by discriminate.
    assert (Hno : ~ occurs (lit "/src/") post) by exact (lastCut_rest _ _ _ _ Hsrc Hcut).
    split; [|split; [exact Hno | now apply trimPath_no_marker]].
    destruct Hcut as [-> _]. exists (pre ++ lit "/src/"). now rewrite <- app_assoc.
Qed.

(** X2. What [functionName] returns: the package is a prefix of the name, the
    function holds no middle dot, and nothing is gained in length.  For a
    name without middle dot the two parts give the name back: either it has
    no period and is the function, or it is package, period, function,
    with no period in the function. *)
Theorem functionName_parts (fnName pack name : gostring) :
  functionName fnName = Returns (pack, name) ->
  pack `prefix_of` fnName /\
  ~ occurs middleDot name /\
  (length pack + length name <= length fnName)%nat /\
  (~ occurs middleDot fnName ->
   ("."%char ∉ name) /\
   ((pack = [] /\ fnName = name) \/ fnName = pack ++ "."%char :: name)).
Proof.
  intros Hfn.
  pose proof (fun s => proj1 (Replace_middleDot s)) as Hnomd.
  pose proof (fun s => proj2 (Replace_middleDot s)) as Hlen.
  destruct (LastIndex_cases fnName (lit ".")) as [[_ Hno]|(pre & post & Hcut & _)].
  - assert (Hdot : "."%char ∉ fnName) by (intros H; apply Hno; now apply elem_occurs).
    rewrite (functionName_nodot fnName Hdot) in Hfn. injection Hfn as <- <-.
    split; [apply prefix_nil|]. split; [apply Hnomd|].
    split; [simpl; apply Hlen|]. intros Hmd.
    pose proof (Replace_last_segment fnName Hmd) as Hid.
    change (lit ".") with ["."%char] in Hid. rewrite Hid.
    split; [exact Hdot | now left].
  - rewrite (functionName_lastCut _ _ _ Hcut) in Hfn. injection Hfn as <- <-.
    assert (Hdot : "."%char ∉ post).
    { assert (Hne : lit "." <> []) by discriminate.
      intros H. apply (lastCut_rest _ _ _ _ Hne Hcut). now apply elem_occurs. }
    destruct Hcut as [Hs _]. change (lit ".") with ["."%char] in Hs. simpl in Hs.
    split; [rewrite Hs; now apply prefix_app_r|]. split; [apply Hnomd|].
    split.
    { pose proof (Hlen post) as Hl. change (lit ".") with ["."%char] in Hl.
      rewrite Hs, length_app. simpl length. lia. }
    intros Hmd.
    assert (Hpost : ~ occurs middleDot post).
    { intros (p1 & p2 & Hp). apply Hmd. rewrite Hs, Hp.
      exists (pre ++ "."%char :: p1), p2. now rewrite <- app_assoc. }
    pose proof (Replace_last_segment post Hpost) as Hid.
    change (lit ".") with ["."%char] in Hid. rewrite Hid.
    split; [exact Hdot | now right].
Qed.

Lemma functionName_parts_witness :
  lit "pkg/sub" `prefix_of` lit "pkg/sub.Func.inner" /\
  ~ occurs middleDot (lit "inner").
Proof.
  destruct (functionName_parts (lit "pkg/sub.Func.inner") (lit "pkg/sub.Func") (lit "inner")
              eq_refl) as (H1 & H2 & _).
  split; [|exact H2]. exists (lit ".Func.inner"). reflexivity.
Defined.

(** X3. In every frame of every trace: the frame is not in-app, its file name
    is its absolute path trimmed by [trimPath] (a suffix of it without
    [/src/]), and its function holds no middle dot. *)
Theorem frame_fields_of_every_trace (st : gostring) (tr : ReportableStackTrace) :
  parsePrintedStack st = Returns (Some tr) ->
  Forall (fun fr =>
            InApp fr = false /\
            trimPath (AbsolutePath fr) = Returns (Filename fr) /\
            Filename fr `suffix_of` AbsolutePath fr /\
            ~ occurs (lit "/src/") (Filename fr) /\
            ~ occurs middleDot (Function_ fr))
         (Frames tr).
Proof.
  intros Htr.
  destruct (parsePrintedStack_entries st) as (fs & _ & Hfs & _ & Hp).
  rewrite Hp in Htr. injection Htr as <-. simpl Frames.
  apply Forall_reverse, Forall_forall. intros fr Hfr.
  apply list_elem_of_lookup in Hfr as [i Hi].
  destruct (Forall2_lookup_r _ _ _ _ _ Hfs Hi) as (e & _ & Hframe).
  apply frameOfEntry_newFrame in Hframe as (file & line & Hnew).
  apply newFrame_fields in Hnew as (Hpath & _ & Happ & Htrim & Hunk & Hname).
  rewrite Hpath. split; [exact Happ|]. split; [exact Htrim|].
  destruct (trimPath_total file) as (r & Hr & _).
  assert (r = Filename fr) as <- by congruence.
  destruct (LastIndex_cases file (lit "/src/")) as [[_ Hno]|(pre & post & Hcut & _)].
  - rewrite (trimPath_no_marker file Hno) in Hr. injection Hr as <-.
    split; [done|]. split; [exact Hno|]. revert Hunk Hname. generalize (e.1). intros fn Hunk Hname.
    destruct (decide (fn = unknown)) as [Hu|Hu].
    + destruct (Hunk Hu) as [_ ->]. apply LastIndex_none. reflexivity.
    + specialize (Hname Hu). unfold functionName in Hname. cbv zeta in Hname.
      destruct (if negb (LastIndex fn (lit ".") =? -1) then _ else _) as [[p n]| |];
        try discriminate Hname.
      rewrite bind_Returns in Hname. injection Hname as _ <-. apply Replace_middleDot.
  - rewrite (trimPath_lastCut _ _ _ Hcut) in Hr. injection Hr as <-.
    split; [destruct Hcut as [-> _]; exists (pre ++ lit "/src/"); now rewrite <- app_assoc|].
    assert (Hsrc : lit "/src/" <> []) by discriminate.
    split; [exact (lastCut_rest _ _ _ _ Hsrc Hcut)|].
    revert Hunk Hname. generalize (e.1). intros fn Hunk Hname.
    destruct (decide (fn = unknown)) as [Hu|Hu].
    + destruct (Hunk Hu) as [_ ->]. apply LastIndex_none. reflexivity.
    + specialize (Hname Hu). unfold functionName in Hname. cbv zeta in Hname.
      destruct (if negb (LastIndex fn (lit ".") =? -1) then _ else _) as [[p n]| |];
        try discriminate Hname.
      rewrite bind_Returns in Hname. injection Hname as _ <-. apply Replace_middleDot.
Qed.

Lemma frame_fields_of_every_trace_witness :
  Forall (fun fr =>
            InApp fr = false /\
            trimPath (AbsolutePath fr) = Returns (Filename fr) /\
            Filename fr `suffix_of` AbsolutePath fr /\
            ~ occurs (lit "/src/") (Filename fr) /\
            ~ occurs middleDot (Function_ fr))
         [{| AbsolutePath := lit "/go/src/a/b.go"; Filename := lit "a/b.go"; Lineno := 7;
             InApp := false; Module_ := lit "a"; Function_ := lit "f.func1" |}].
Proof.
  apply (frame_fields_of_every_trace
           (lit "a.f" ++ middleDot ++ lit "func1" ++ [newline; tab] ++ lit "/go/src/a/b.go:7")
           {| Frames := [{| AbsolutePath := lit "/go/src/a/b.go"; Filename := lit "a/b.go";
                            Lineno := 7; InApp := false;
                            Module_ := lit "a"; Function_ := lit "f.func1" |}] |}).
  reflexivity.
Defined.

(** X4. An entry takes one or two lines: a trace has at most as many frames as
    the trimmed text has lines, and at least half as many. *)
Theorem frame_count_bounds (st : gostring) :
  exists tr,
    parsePrintedStack st = Returns (Some tr) /\
    (length (Frames tr) <= length (Split (TrimSpace st) newline))%nat /\
    (length (Split (TrimSpace st) newline) <= 2 * length (Frames tr))%nat.
Proof.
  destruct (parsePrintedStack_entries st) as (fs & _ & Hfs & _ & Hp).
  exists {| Frames := reverse fs |}. split; [exact Hp|]. simpl Frames.
  rewrite length_reverse, <- (Forall2_length _ _ _ Hfs).
  apply entries_length_bounds.
Qed.

(** X5. A text none of whose lines starts with a tab gives one frame per
    line, last line first, each with empty paths and line 0. *)
Theorem untabbed_text_one_frame_per_line (st : gostring) :
  Forall (fun l => HasPrefix l [tab] = false) (Split (TrimSpace st) newline) ->
  exists tr,
    parsePrintedStack st = Returns (Some tr) /\
    length (Frames tr) = length (Split (TrimSpace st) newline) /\
    forall (i : nat) (l : gostring),
      Split (TrimSpace st) newline !! i = Some l ->
      exists fr,
        Frames tr !! (length (Split (TrimSpace st) newline) - 1 - i)%nat = Some fr /\
        newFrame [] 0 l = Returns fr /\
        AbsolutePath fr = [] /\ Filename fr = [] /\ Lineno fr = 0.
Proof.
  intros Hall. set (lines := Split (TrimSpace st) newline) in *.
  destruct (parsePrintedStack_entries st) as (fs & _ & Hfs & _ & Hp). fold lines in Hfs.
  rewrite (entries_untabbed_lines lines Hall) in Hfs.
  pose proof (Forall2_length _ _ _ Hfs) as Hlen. rewrite length_map in Hlen.
  exists {| Frames := reverse fs |}. split; [exact Hp|]. simpl Frames.
  split; [rewrite length_reverse; lia|].
  intros i l Hl. pose proof (lookup_lt_Some _ _ _ Hl) as Hi.
  assert (He : map (fun l => (l, @None gostring)) lines !! i = Some (l, None)).
  { rewrite list_lookup_fmap, Hl. reflexivity. }
  destruct (Forall2_lookup_l _ _ _ _ _ Hfs He) as (fr & Hfr & Hframe).
  exists fr. split.
  { rewrite reverse_lookup by lia. rewrite <- Hfr. f_equal. lia. }
  unfold frameOfEntry in Hframe. simpl entryLines in Hframe.
  rewrite entry_single, bind_Returns in Hframe. split; [exact Hframe|].
  apply newFrame_fields in Hframe as (Hpath & Hline & _ & Htrim & _).
  change (trimPath []) with (@Returns gostring []) in Htrim.
  injection Htrim as <-. auto.
Qed.

Lemma untabbed_text_one_frame_per_line_witness :
  exists tr,
    parsePrintedStack (lit "unknown" ++ [newline] ++ lit "a.f" ++ [newline] ++ lit "unknown")
    = Returns (Some tr) /\
    length (Frames tr) = 3%nat.
Proof.
  destruct (untabbed_text_one_frame_per_line
              (lit "unknown" ++ [newline] ++ lit "a.f" ++ [newline] ++ lit "unknown"))
    as (tr & Hp & Hlen & _).
  - vm_compute. repeat constructor.
  - exists tr. split; [exact Hp|]. rewrite Hlen. reflexivity.
Defined.

(** X6. ASCII white space before and after the text (the heading newlines of
    a printed stack) does not change the trace. *)
Theorem surrounding_space_ignored (before st after : gostring) :
  forallb asciiSpace before = true -> forallb asciiSpace after = true ->
  parsePrintedStack (before ++ st ++ after) = parsePrintedStack st.
Proof.
  intros Hb Ha. unfold parsePrintedStack, collectFrames.
  now rewrite (TrimSpace_surrounding before st after Hb Ha).
Qed.

Lemma surrounding_space_ignored_witness :
  parsePrintedStack ([newline; newline; " "%char] ++ lit "main.main" ++ [tab; newline])
  = parsePrintedStack (lit "main.main").
Proof.
  apply (surrounding_space_ignored [newline; newline; " "%char] (lit "main.main")
           [tab; newline]); reflexivity.
Defined.

(** X7. Printing and parsing compose.  A stack of well-formed call sites,
    printed one after the other (each preceded by a newline; a known site
    as its function name and, on the next line, a tab, the file, a colon
    and the line number in decimal), is parsed into one frame per call
    site, in reverse order: the frame of a known site has its file as
    absolute path, its line as line number, and its function name split by
    [functionName]. *)
Theorem printed_stack_round_trip (sites : list site) :
  sites <> [] -> Forall wellFormed sites ->
  exists tr,
    parsePrintedStack (printStack sites) = Returns (Some tr) /\
    Forall2 siteFrame (reverse sites) (Frames tr).
Proof.
  intros Hne Hwf.
  destruct (parsePrintedStack_entries (printStack sites)) as (fs & _ & Hfs & _ & Hp).
  rewrite (printStack_split sites Hne Hwf), (entries_stackLines sites Hwf) in Hfs.
  exists {| Frames := reverse fs |}. split; [exact Hp|]. simpl Frames.
  apply Forall2_reverse. now apply frames_of_sites.
Qed.

Lemma printed_stack_round_trip_witness :
  exists tr,
    parsePrintedStack (printStack [Site (lit "a/b.f") (lit "/go/src/a/b/c.go") 42; Unknown])
    = Returns (Some tr) /\
    Forall2 siteFrame [Unknown; Site (lit "a/b.f") (lit "/go/src/a/b/c.go") 42] (Frames tr).
Proof.
  apply (printed_stack_round_trip [Site (lit "a/b.f") (lit "/go/src/a/b/c.go") 42; Unknown]).
  - discriminate.
  - apply Forall_cons_2; [|apply Forall_cons_2; [exact I | apply Forall_nil_2]].
    split; [reflexivity|].
    split; [apply (bool_decide_unpack _); vm_compute; exact I|].
    split; [apply (bool_decide_unpack _); vm_compute; exact I|].
    split; [right; reflexivity|].
    rewrite StrconvFacts.maxInt_val. lia.
Defined.

(** X8. [parsePrintedStackEntry] returns the line at its index as the function
    name, unchanged, and takes the line after it exactly when that line
    exists and starts with a tab: then the new index is the next one and
    file and line number are read from that line; otherwise the index
    stays, the file is empty and the line number is 0. *)
Theorem entry_takes_tabbed_line
        (lines : list gostring) (i newI : Z) (file : gostring) (line : Z) (fnName : gostring) :
  parsePrintedStackEntry lines i = Returns (newI, file, line, fnName) ->
  0 <= i /\ lines !! Z.to_nat i = Some fnName /\
  ((newI = i + 1 /\
    exists next, lines !! Z.to_nat (i + 1) = Some next /\
                 HasPrefix next [tab] = true /\ fileAndLine next file line) \/
   (newI = i /\ file = [] /\ line = 0 /\
    forall next, lines !! Z.to_nat (i + 1) = Some next -> HasPrefix next [tab] = false)).
Proof.
  intros He.
  destruct (decide (0 <= i < len lines)) as [Hi|Hi];
    [|rewrite (entry_out_of_bounds lines i Hi) in He; discriminate He].
  destruct (index_total lines i Hi) as (fn & Hfn & _).
  pose proof (take_drop_middle lines (Z.to_nat i) fn Hfn) as Hsplit.
  remember (take (Z.to_nat i) lines) as pre eqn:Epre.
  remember (drop (S (Z.to_nat i)) lines) as rest eqn:Erest.
  assert (Hpre : len pre = i).
  { unfold len. rewrite Epre, length_take. unfold len in Hi. lia. }
  clear Epre Erest Hfn Hi. subst lines i.
  assert (Hat : Z.to_nat (len pre) = length pre) by (unfold len; lia).
  assert (Hat1 : Z.to_nat (len pre + 1) = S (length pre)) by (unfold len; lia).
  rewrite Hat, Hat1.
  assert (Hfn : (pre ++ fn :: rest) !! length pre = Some fn) by now apply list_lookup_middle.
  assert (Hnext : (pre ++ fn :: rest) !! S (length pre) = rest !! 0%nat).
  { rewrite (cons_middle fn pre rest), app_assoc.
    rewrite lookup_app_r by (rewrite length_app; simpl; lia).
    f_equal. rewrite length_app. simpl. lia. }
  rewrite Hnext. pose proof (len_nonneg pre) as Hnn.
  destruct rest as [|next rest'].
  - rewrite (entry_untabbed pre fn [] I) in He. injection He as <- <- <- <-.
    split; [exact Hnn|]. split; [exact Hfn|]. right. repeat split; try done.
  - destruct (HasPrefix next [tab]) eqn:Htab.
    + destruct (entry_tabbed pre fn next rest' Htab) as (file' & line' & He' & _ & Hfl).
      rewrite He' in He. injection He as <- <- <- <-.
      split; [exact Hnn|]. split; [exact Hfn|]. left. split; [done|].
      exists next. auto.
    + rewrite (entry_untabbed pre fn (next :: rest') Htab) in He. injection He as <- <- <- <-.
      split; [exact Hnn|]. split; [exact Hfn|]. right. repeat split; try done.
      intros next' [= <-]. exact Htab.
Qed.

Lemma entry_takes_tabbed_line_witness :
  0 <= 1 /\
  [lit "a.f"; lit "b.g"; tab :: lit "/x/b.go:9"] !! Z.to_nat 1 = Some (lit "b.g").
Proof.
  destruct (entry_takes_tabbed_line [lit "a.f"; lit "b.g"; tab :: lit "/x/b.go:9"]
              1 2 (lit "/x/b.go") 9 (lit "b.g") eq_refl) as (H0 & H1 & _).
  split; [exact H0 | exact H1].
Defined.

Section ResolverBehaviour.

Variable Sprintf_plus_v : StackTrace -> gostring.
Variables pkgFundamental pkgWithStackName ourWithStackName : TypeKey.

Local Abbreviation resolve :=
  (GetReportableStackTrace Sprintf_plus_v pkgFundamental pkgWithStackName ourWithStackName).
Local Abbreviation isMarker :=
  (isOriginMarker pkgFundamental pkgWithStackName ourWithStackName).

(** X9. [convertPkgStack] returns nil exactly for the empty stack; any other
    stack gives the trace parsed from its printed form, with at least one
    frame. *)
Theorem convertPkgStack_nil_iff_empty (st : StackTrace) :
  (convertPkgStack Sprintf_plus_v st = Returns None <-> st = []) /\
  (st <> [] ->
   exists tr, convertPkgStack Sprintf_plus_v st = Returns (Some tr) /\
              parsePrintedStack (Sprintf_plus_v st) = Returns (Some tr) /\
              (1 <= length (Frames tr))%nat).
Proof.
  unfold convertPkgStack. destruct st as [|pc st].
  - split; [done|]. intros H. now destruct H.
  - replace (len (pc :: st) =? 0) with false
      by (symmetry; apply Z.eqb_neq; rewrite len_cons; pose proof (len_nonneg st); lia).
    destruct (parsePrintedStack_entries (Sprintf_plus_v (pc :: st)))
      as (fs & Hne & _ & _ & Hp).
    rewrite Hp. split; [split; discriminate|]. intros _.
    eexists. split; [reflexivity|]. split; [reflexivity|]. simpl Frames.
    rewrite length_reverse. destruct fs; [done | simpl; lia].
Qed.

(** X10. The resolver answers nil in exactly two situations: the error has a
    [StackTrace()] method that returns an empty stack (its safe details
    are then not looked at), or it has no such method and lacks a detail
    string or a registered type key. *)
Theorem resolver_nil_iff (err : error) :
  resolve err = Returns None <->
  StackTracer err = Some [] \/
  (StackTracer err = None /\
   (SafeDetailer err = None \/ SafeDetailer err = Some [] \/
    ~ isMarker (GetTypeKey err))).
Proof.
  unfold GetReportableStackTrace, isOriginMarker.
  assert (Hkey : bool_decide (GetTypeKey err = pkgFundamental)
                 || bool_decide (GetTypeKey err = pkgWithStackName)
                 || bool_decide (GetTypeKey err = ourWithStackName) = true
                 <-> (GetTypeKey err = pkgFundamental \/ GetTypeKey err = pkgWithStackName
                      \/ GetTypeKey err = ourWithStackName)).
  { rewrite !orb_true_iff, !bool_decide_eq_true. tauto. }
  assert (Hnil : forall s, parsePrintedStack s <> Returns None).
  { intros s. destruct (parsePrintedStack_entries s) as (fs & _ & _ & _ & H).
    rewrite H. discriminate. }
  destruct (StackTracer err) as [st|].
  { rewrite (proj1 (convertPkgStack_nil_iff_empty st)). split.
    - intros ->. now left.
    - intros [[= ->]|[H _]]; [done | discriminate H]. }
  destruct (SafeDetailer err) as [[|d0 ds]|].
  - split; [|done]. intros _. right. auto.
  - replace (0 <? len (d0 :: ds)) with true
      by (symmetry; apply Z.ltb_lt; rewrite len_cons; pose proof (len_nonneg ds); lia).
    change (index (d0 :: ds) 0) with (Returns d0). rewrite bind_Returns.
    destruct (bool_decide (GetTypeKey err = pkgFundamental)
              || bool_decide (GetTypeKey err = pkgWithStackName)
              || bool_decide (GetTypeKey err = ourWithStackName)) eqn:E.
    + split; [intros H; now apply Hnil in H|].
      intros [H|[_ [H|[H|H]]]]; try discriminate H. exfalso. apply H. now apply Hkey.
    + split; [|done]. intros _. right. split; [done|]. right. right.
      intros H. apply Hkey in H. discriminate H.
  - split; [|done]. intros _. right. auto.
Qed.

(** X11. Where a trace of the resolver comes from: it is parsed from the printed
    form of a non-empty structured stack, or, for an error without
    [StackTrace()] method and with a registered type key, from its first
    safe detail string; it always has at least one frame. *)
Theorem resolver_trace_origin (err : error) (tr : ReportableStackTrace) :
  resolve err = Returns (Some tr) ->
  (1 <= length (Frames tr))%nat /\
  ((exists st, StackTracer err = Some st /\ st <> [] /\
               parsePrintedStack (Sprintf_plus_v st) = Returns (Some tr)) \/
   (exists d0 ds, StackTracer err = None /\ SafeDetailer err = Some (d0 :: ds) /\
                  isMarker (GetTypeKey err) /\
                  parsePrintedStack d0 = Returns (Some tr))).
Proof.
  assert (Hlen : forall s, parsePrintedStack s = Returns (Some tr) ->
                           (1 <= length (Frames tr))%nat).
  { intros s Hs. destruct (parsePrintedStack_entries s) as (fs & Hne & _ & _ & H).
    rewrite H in Hs. injection Hs as <-. simpl. rewrite length_reverse.
    destruct fs; [done | simpl; lia]. }
  unfold GetReportableStackTrace, isOriginMarker.
  destruct (StackTracer err) as [st|].
  { unfold convertPkgStack. destruct st as [|pc st]; [discriminate|].
    replace (len (pc :: st) =? 0) with false
      by (symmetry; apply Z.eqb_neq; rewrite len_cons; pose proof (len_nonneg st); lia).
    intros H. split; [exact (Hlen _ H)|]. left. exists (pc :: st). auto. }
  destruct (SafeDetailer err) as [[|d0 ds]|]; try discriminate.
  replace (0 <? len (d0 :: ds)) with true
    by (symmetry; apply Z.ltb_lt; rewrite len_cons; pose proof (len_nonneg ds); lia).
  change (index (d0 :: ds) 0) with (Returns d0). rewrite bind_Returns.
  destruct (bool_decide (GetTypeKey err = pkgFundamental)
            || bool_decide (GetTypeKey err = pkgWithStackName)
            || bool_decide (GetTypeKey err = ourWithStackName)) eqn:E; [|discriminate].
  intros H. split; [exact (Hlen _ H)|]. right. exists d0, ds.
  repeat split; try done.
  rewrite !orb_true_iff, !bool_decide_eq_true in E. tauto.
Qed.

End ResolverBehaviour.

Lemma resolver_trace_origin_witness :
  (1 <= length (Frames {| Frames := [unknownFrame] |}))%nat.
Proof.
  apply (resolver_trace_origin (fun _ => lit "unknown") (lit "k1") (lit "k2") (lit "k3")
           {| StackTracer := Some [1]; SafeDetailer := None; GetTypeKey := lit "k0" |}
           {| Frames := [unknownFrame] |}).
  reflexivity.
Defined.

Lemma convertPkgStack_nil_iff_empty_witness :
  convertPkgStack (fun _ => lit "unknown") [] = Returns None.
Proof.
  apply (proj1 (convertPkgStack_nil_iff_empty (fun _ => lit "unknown") [])). reflexivity.
Defined.

Lemma resolver_nil_iff_witness :
  GetReportableStackTrace (fun _ => lit "unknown") (lit "k1") (lit "k2") (lit "k3")
    {| StackTracer := Some []; SafeDetailer := Some [lit "main.main"]; GetTypeKey := lit "k1" |}
  = Returns None.
Proof.
  apply (resolver_nil_iff (fun _ => lit "unknown") (lit "k1") (lit "k2") (lit "k3")).
  left. reflexivity.
Defined.

End Behaviour.
